(** * libpu8: UTF-8 console adapters over a UTF-16 terminal

    A shallow embedding of [libpu8.cpp] / [libpu8.h] (the Windows branch):
    the sequence classifier [num_succeeding_bytes], the trailing-partial
    detection [num_trailing_partial_bytes], the codec wrappers [u8widen] and
    [u8narrow], and the two stream buffers ([sync] of the output buffer,
    [underflow] of the input buffer).

    Conventions.
    - A [char] / [unsigned char] is a [byte]; its unsigned value is [uchar c],
      an integer in [0, 256).  A [std::string] is a [list byte].
    - A [wchar_t] is a 16-bit code unit, kept as a [Z]; a [std::wstring] is a
      [list Z].
    - [size_t] quantities that index or measure a string are [nat]; the
      comparison against [INT_MAX] is done in [Z].
    - [assert(false)] is kept visible: a computation either [Returns] a value
      or [AssertFails], carrying the value an NDEBUG build would go on with.
    - A thrown [U8ConversionError] is the [Throws] outcome.
    - The Win32 primitives are outside the repository; they are modelled in
      the module [Win32] below. *)

From Stdlib Require Import String.
From Stdlib Require Import ZArith List Bool Lia.
From Stdlib Require Import Strings.Byte.
Import ListNotations.

Local Open Scope Z_scope.

(* ------------------------------------------------------------------ *)
(** ** Bytes and code units *)

(** The value of a [char] once converted to [unsigned char]. *)
Definition uchar (c : byte) : Z := Z.of_N (Byte.to_N c).

(** The byte with unsigned value [z mod 256]. *)
Definition byte_of_Z (z : Z) : byte :=
  match Byte.of_N (Z.to_N (z mod 256)) with
  | Some b => b
  | None => x00
  end.

Abbreviation wchar_t := Z (only parsing).
Abbreviation wstring := (list Z) (only parsing).
Abbreviation cstring := (list byte) (only parsing).

Definition INT_MAX : Z := 2147483647.
Definition UINT_MAX : Z := 4294967295.

(* ------------------------------------------------------------------ *)
(** ** Assertions *)

Inductive asserted (A : Type) : Type :=
| Returns (a : A)
| AssertFails (ndebug : A).
Arguments Returns {A} a.
Arguments AssertFails {A} ndebug.

Definition abind {A B} (m : asserted A) (k : A -> asserted B) : asserted B :=
  match m with
  | Returns a => k a
  | AssertFails a =>
      match k a with
      | Returns b => AssertFails b
      | AssertFails b => AssertFails b
      end
  end.

Notation "x <~ m ;; k" := (abind m (fun x => k))
  (at level 61, m at next level, right associativity).

(** What the function hands back when assertions are compiled out. *)
Definition ndebug_value {A} (m : asserted A) : A :=
  match m with Returns a => a | AssertFails a => a end.

Definition asserts {A} (m : asserted A) : bool :=
  match m with Returns _ => false | AssertFails _ => true end.

(* ------------------------------------------------------------------ *)
(** ** The sequence classifier *)

(** [unsigned num_succeeding_bytes(unsigned char c)]: a [switch] on [c >> 5]. *)
Definition num_succeeding_bytes (c : byte) : asserted Z :=
  match Z.shiftr (uchar c) 5 with
  | 0 | 1 | 2 | 3 => Returns 0                  (* ascii byte *)
  | 4 | 5 => AssertFails 0                      (* this is a continuation byte *)
  | 6 => Returns 1
  | 7 => if negb (Z.land (uchar c) (Z.shiftl 1 5) =? 0)
         then Returns 3
         else Returns 2
  | _ => AssertFails UINT_MAX                   (* default: unsigned(-1) *)
  end.

(** [is_utf8_continuation] and [is_utf8_leading] of [U8ConsoleOstreamBufWin32]. *)
Definition is_utf8_continuation (c : byte) : bool :=
  Z.land (uchar c) 192 =? 128.

Definition is_utf8_leading (c : byte) : bool :=
  Z.land (uchar c) 192 =? 192.

(* ------------------------------------------------------------------ *)
(** ** Trailing-partial detection *)

(** [s[i]] for an index inside the string. *)
Definition at_index (s : cstring) (i : nat) : byte := nth i s x00.

(** The loop
    [while (result < s.size() && is_utf8_continuation(s[s.size() - result - 1])) ++result;]
    run for at most [fuel] iterations. *)
Fixpoint skip_continuation (fuel : nat) (s : cstring) (result : nat) : nat :=
  match fuel with
  | O => result
  | S fuel' =>
      if (result <? length s)%nat
         && is_utf8_continuation (at_index s (length s - result - 1))
      then skip_continuation fuel' s (S result)
      else result
  end.

(** The value of [result] when the loop is left: every iteration increments
    [result] and needs [result < s.size()], so [s.size()] iterations are
    enough (see [skip_continuation_fuel]). *)
Definition trailing_continuation (s : cstring) : nat :=
  skip_continuation (length s) s 0.

(** The byte [num_trailing_partial_bytes] hands to [num_succeeding_bytes],
    when it reaches the call. *)
Definition classifier_argument (s : cstring) : option byte :=
  match s with
  | [] => None
  | _ =>
      if is_utf8_leading (last s x00) then None
      else
        let result := trailing_continuation s in
        if (0 <? result)%nat && (result <? length s)%nat
        then Some (at_index s (length s - result - 1))
        else None
  end.

(** [size_t num_trailing_partial_bytes(const std::string& s)]. *)
Definition num_trailing_partial_bytes (s : cstring) : asserted nat :=
  match s with
  | [] => Returns 0%nat
  | _ =>
      if is_utf8_leading (last s x00) then Returns 1%nat
      else
        let result := trailing_continuation s in
        if (0 <? result)%nat && (result <? length s)%nat
        then
          (* there is a non-continuation byte left *)
          n <~ num_succeeding_bytes (at_index s (length s - result - 1)) ;;
          if n =? Z.of_nat result
          then Returns 0%nat          (* s ends with a complete multi-byte sequence *)
          else Returns (S result)     (* s ends with an incomplete multi-byte sequence *)
        else Returns result
  end.

(* ------------------------------------------------------------------ *)
(** ** The platform: conversion and console primitives

    [MultiByteToWideChar], [WideCharToMultiByte], [ReadConsoleW],
    [WriteConsoleW] and [IS_HIGH_SURROGATE] belong to the Windows SDK, not to
    the library.  The conversion primitives are modelled by the Unicode
    encoding forms: with the [*_ERR_INVALID_CHARS] flag an ill-formed input
    makes the call fail (result 0); without it every ill-formed unit is
    replaced by U+FFFD.  The console primitives are scripted: each call
    consumes the next reply of a script and is recorded in a log. *)
Module Win32.

Definition MB_ERR_INVALID_CHARS : Z := 8.
Definition WC_ERR_INVALID_CHARS : Z := 128.
Definition REPLACEMENT : Z := 65533.                      (* U+FFFD *)

Definition IS_HIGH_SURROGATE (wch : wchar_t) : bool :=
  (55296 <=? wch) && (wch <=? 56319).                     (* D800..DBFF *)
Definition IS_LOW_SURROGATE (wch : wchar_t) : bool :=
  (56320 <=? wch) && (wch <=? 57343).                     (* DC00..DFFF *)

(** Unicode scalar values: code points that are not surrogates. *)
Definition is_scalar (cp : Z) : bool :=
  (0 <=? cp) && (cp <=? 1114111)
  && negb ((55296 <=? cp) && (cp <=? 57343)).

(** *** Encoding forms *)

Definition utf8_of_cp (cp : Z) : cstring :=
  if cp <? 128 then [byte_of_Z cp]
  else if cp <? 2048 then
    [byte_of_Z (192 + cp / 64); byte_of_Z (128 + cp mod 64)]
  else if cp <? 65536 then
    [byte_of_Z (224 + cp / 4096); byte_of_Z (128 + (cp / 64) mod 64);
     byte_of_Z (128 + cp mod 64)]
  else
    [byte_of_Z (240 + cp / 262144); byte_of_Z (128 + (cp / 4096) mod 64);
     byte_of_Z (128 + (cp / 64) mod 64); byte_of_Z (128 + cp mod 64)].

Definition utf16_of_cp (cp : Z) : wstring :=
  if cp <? 65536 then [cp]
  else [55296 + (cp - 65536) / 1024; 56320 + (cp - 65536) mod 1024].

Definition utf8_encode (cps : list Z) : cstring := flat_map utf8_of_cp cps.
Definition utf16_encode (cps : list Z) : wstring := flat_map utf16_of_cp cps.

Definition is_trail (c : byte) : bool :=
  (128 <=? uchar c) && (uchar c <=? 191).

(** Payload of a continuation byte. *)
Definition trail (c : byte) : Z := uchar c - 128.

(** UTF-8 decoding.  [strict = true] fails at the first ill-formed
    sequence; [strict = false] replaces the offending byte by U+FFFD and
    resumes at the next byte. *)
Fixpoint utf8_decode (strict : bool) (s : cstring) {struct s} : option (list Z) :=
  match s with
  | [] => Some []
  | b0 :: r0 =>
      let bad := if strict then None
                 else option_map (cons REPLACEMENT) (utf8_decode strict r0) in
      let v0 := uchar b0 in
      if v0 <? 128 then option_map (cons v0) (utf8_decode strict r0)
      else if (192 <=? v0) && (v0 <? 224) then
        match r0 with
        | b1 :: r1 =>
            let cp := (v0 - 192) * 64 + trail b1 in
            if is_trail b1 && (128 <=? cp)
            then option_map (cons cp) (utf8_decode strict r1) else bad
        | _ => bad
        end
      else if (224 <=? v0) && (v0 <? 240) then
        match r0 with
        | b1 :: b2 :: r2 =>
            let cp := (v0 - 224) * 4096 + trail b1 * 64 + trail b2 in
            if is_trail b1 && is_trail b2 && (2048 <=? cp) && is_scalar cp
            then option_map (cons cp) (utf8_decode strict r2) else bad
        | _ => bad
        end
      else if (240 <=? v0) && (v0 <? 248) then
        match r0 with
        | b1 :: b2 :: b3 :: r3 =>
            let cp := (v0 - 240) * 262144 + trail b1 * 4096
                      + trail b2 * 64 + trail b3 in
            if is_trail b1 && is_trail b2 && is_trail b3
               && (65536 <=? cp) && is_scalar cp
            then option_map (cons cp) (utf8_decode strict r3) else bad
        | _ => bad
        end
      else bad
  end.

(** UTF-16 decoding, same policy: an unpaired surrogate is ill-formed. *)
Fixpoint utf16_decode (strict : bool) (w : wstring) {struct w} : option (list Z) :=
  match w with
  | [] => Some []
  | u :: r =>
      let bad := if strict then None
                 else option_map (cons REPLACEMENT) (utf16_decode strict r) in
      if IS_HIGH_SURROGATE u then
        match r with
        | l :: r' =>
            if IS_LOW_SURROGATE l
            then option_map (cons (65536 + (u - 55296) * 1024 + (l - 56320)))
                            (utf16_decode strict r')
            else bad
        | [] => bad
        end
      else if IS_LOW_SURROGATE u then bad
      else option_map (cons u) (utf16_decode strict r)
  end.

(** *** Conversion primitives (code page fixed to [CP_UTF8]).

    With a zero output size the call reports the required length; otherwise
    it writes the converted text and reports its length.  A failed call
    reports 0 and writes nothing.  The result is an [int]: a length above
    [INT_MAX] cannot be reported, and the call is taken to fail.  The
    statements about [u8narrow] bound their input so that the length fits. *)
Definition report {A} (converted : option (list A)) (cch : Z) : Z * list A :=
  match converted with
  | None => (0, [])
  | Some out =>
      let n := Z.of_nat (length out) in
      if INT_MAX <? n then (0, [])
      else if cch =? 0 then (n, [])
      else if n <=? cch then (n, out) else (0, [])
  end.

Definition MultiByteToWideChar (dwFlags : Z) (lpMultiByteStr : cstring)
           (cchWideChar : Z) : Z * wstring :=
  let strict := negb (Z.land dwFlags MB_ERR_INVALID_CHARS =? 0) in
  report (option_map utf16_encode (utf8_decode strict lpMultiByteStr)) cchWideChar.

Definition WideCharToMultiByte (dwFlags : Z) (lpWideCharStr : wstring)
           (cbMultiByte : Z) : Z * cstring :=
  let strict := negb (Z.land dwFlags WC_ERR_INVALID_CHARS =? 0) in
  report (option_map utf8_encode (utf16_decode strict lpWideCharStr)) cbMultiByte.

(** *** Console input: a script of replies, and the log of requests. *)
Record read_reply := { read_ok : bool; read_units : wstring }.

Record console_in := {
  read_script : list read_reply;
  read_log : list nat        (* nNumberOfCharsToRead of every call, in order *)
}.

(** [ReadConsoleW(h, buf, n, &readSize, NULL)]: success flag, the units
    stored (never more than [n]), and the console afterwards.  An exhausted
    script reports failure. *)
Definition ReadConsoleW (con : console_in) (n : nat)
  : bool * wstring * console_in :=
  match read_script con with
  | [] => (false, [], {| read_script := []; read_log := read_log con ++ [n] |})
  | r :: script =>
      (read_ok r, firstn n (read_units r),
       {| read_script := script; read_log := read_log con ++ [n] |})
  end.

(** *** Console output. *)
Record write_reply := { write_ok : bool; written_size : Z }.

Record console_out := {
  write_script : list write_reply;
  write_log : list wstring   (* the text of every write request, in order *)
}.

Definition default_write_reply : write_reply :=
  {| write_ok := false; written_size := 0 |}.

Definition WriteConsoleW (con : console_out) (text : wstring)
  : write_reply * console_out :=
  (hd default_write_reply (write_script con),
   {| write_script := tl (write_script con);
      write_log := write_log con ++ [text] |}).

End Win32.

(* ------------------------------------------------------------------ *)
(** ** The codec wrappers *)

Inductive thrown (A : Type) : Type :=
| Value (a : A)
| Throws (what : string).      (* U8ConversionError *)
Arguments Value {A} a.
Arguments Throws {A} what.

Definition u8_default_throw : bool := true.

(** [result.resize(n)] followed by the primitive writing [out] into it. *)
Definition resized_and_filled {A} (zero : A) (n : Z) (out : list A) : list A :=
  out ++ skipn (length out) (repeat zero (Z.to_nat n)).

(** [std::wstring u8widen(const char* s, size_t len, bool throw_on_inv_chars)] *)
Definition u8widen (s : cstring) (throw_on_inv_chars : bool) : thrown wstring :=
  let len := Z.of_nat (length s) in
  if len =? 0 then Value []
  else if len <? INT_MAX then
    let flags := if throw_on_inv_chars then Win32.MB_ERR_INVALID_CHARS else 0 in
    let num_wchars := fst (Win32.MultiByteToWideChar flags s 0) in
    if 0 <? num_wchars
    then Value (resized_and_filled 0 num_wchars
                  (snd (Win32.MultiByteToWideChar flags s num_wchars)))
    else Throws "utf8 to wide-string conversion failed."%string
  else Throws "utf8 to wide-string conversion failed."%string.

(** [std::string u8narrow(const wchar_t* s, size_t len, bool throw_on_inv_chars)] *)
Definition u8narrow (s : wstring) (throw_on_inv_chars : bool) : thrown cstring :=
  let len := Z.of_nat (length s) in
  if len =? 0 then Value []
  else if len <? INT_MAX then
    let flags := if throw_on_inv_chars then Win32.WC_ERR_INVALID_CHARS else 0 in
    let utf8_bytes := fst (Win32.WideCharToMultiByte flags s 0) in
    if 0 <? utf8_bytes
    then Value (resized_and_filled x00 utf8_bytes
                  (snd (Win32.WideCharToMultiByte flags s utf8_bytes)))
    else Throws "wide-string to utf8 conversion failed."%string
  else Throws "wide-string to utf8 conversion failed."%string.

(** [std::wcslen]: the units before the first terminator. *)
Fixpoint wcs (buffer : wstring) : wstring :=
  match buffer with
  | [] => []
  | u :: rest => if u =? 0 then [] else u :: wcs rest
  end.

(** [u8narrow(const wchar_t* s, bool throw_on_inv_chars = u8_default_throw)]:
    the length is [wcslen(s)]. *)
Definition u8narrow_cstr (buffer : wstring) (throw_on_inv_chars : bool) : thrown cstring :=
  u8narrow (wcs buffer) throw_on_inv_chars.

(* ------------------------------------------------------------------ *)
(** ** The stream buffers *)

(** How a member function is left. *)
Inductive outcome (A : Type) : Type :=
| Normal (a : A)                (* returns [a] *)
| Exception (what : string)     (* a [U8ConversionError] propagates *)
| Abort.                        (* an assertion failed *)
Arguments Normal {A} a.
Arguments Exception {A} what.
Arguments Abort {A}.

(** *** Output: [U8ConsoleOstreamBufWin32 : std::stringbuf] *)
Record U8ConsoleOstreamBufWin32 := {
  m_unwritten_partial_bytes : cstring;
  str : cstring                 (* the put area of the [std::stringbuf] *)
}.

Definition ostreambuf_init : U8ConsoleOstreamBufWin32 :=
  {| m_unwritten_partial_bytes := []; str := [] |}.

(** The inherited [sputn]: the bytes go to the string buffer. *)
Definition sputn (sb : U8ConsoleOstreamBufWin32) (bytes : cstring)
  : U8ConsoleOstreamBufWin32 :=
  {| m_unwritten_partial_bytes := m_unwritten_partial_bytes sb;
     str := str sb ++ bytes |}.

(** [int U8ConsoleOstreamBufWin32::sync()] *)
Definition sync (sb : U8ConsoleOstreamBufWin32) (con : Win32.console_out)
  : outcome Z * U8ConsoleOstreamBufWin32 * Win32.console_out :=
  let buffer := m_unwritten_partial_bytes sb ++ str sb in
  match num_trailing_partial_bytes buffer with
  | AssertFails _ => (Abort, sb, con)
  | Returns partial_trailing =>
      let sb' := {| m_unwritten_partial_bytes :=
                      skipn (length buffer - partial_trailing) buffer;
                    str := [] |} in
      let buffer := firstn (length buffer - partial_trailing) buffer in
      match buffer with
      | [] => (Normal 0, sb', con)
      | _ =>
          match u8widen buffer u8_default_throw with
          | Throws what => (Exception what, sb', con)
          | Value wideBuffer =>
              let '(_, con') := Win32.WriteConsoleW con wideBuffer in
              (Normal 0, sb', con')
          end
      end
  end.

(** A caller writing [chunk] and flushing. *)
Definition flush (sb : U8ConsoleOstreamBufWin32) (con : Win32.console_out)
           (chunk : cstring) :=
  sync (sputn sb chunk) con.

(** Chunks written and flushed one after the other; the outcomes of the
    [sync] calls are collected in order. *)
Fixpoint flush_all (sb : U8ConsoleOstreamBufWin32) (con : Win32.console_out)
         (chunks : list cstring)
  : list (outcome Z) * U8ConsoleOstreamBufWin32 * Win32.console_out :=
  match chunks with
  | [] => ([], sb, con)
  | chunk :: rest =>
      let '(o, sb', con') := flush sb con chunk in
      let '(os, sb'', con'') := flush_all sb' con' rest in
      (o :: os, sb'', con'')
  end.

(** The text that reached the terminal: all write requests, concatenated. *)
Definition terminal_text (con : Win32.console_out) : wstring :=
  concat (Win32.write_log con).

(** *** Input: [U8ConsoleIstreamBufWin32 : std::streambuf] *)
Record U8ConsoleIstreamBufWin32 := {
  m_buffer : cstring;
  gptr : nat;                   (* get pointer, as an offset into [m_buffer] *)
  egptr : nat                   (* end of the get area, likewise *)
}.

(** The constructor: [setg(0, 0, 0)]. *)
Definition istreambuf_init : U8ConsoleIstreamBufWin32 :=
  {| m_buffer := []; gptr := 0; egptr := 0 |}.

Inductive int_type : Type :=
| eof
| to_int_type (c : Z).

(** [sgetc()] with a non-empty get area: the byte at the get pointer. *)
Definition sgetc (sb : U8ConsoleIstreamBufWin32) : int_type :=
  to_int_type (uchar (at_index (m_buffer sb) (gptr sb))).

Definition ARRAYSIZE_wideBuffer : nat := 128.

(** The block guarded by
    [readSize > 0 && IS_HIGH_SURROGATE(wideBuffer[readSize - 1])]: one more
    read of a single unit, kept when it succeeds and delivers one unit. *)
Definition complete_surrogate (units : wstring) (con : Win32.console_in)
  : wstring * Win32.console_in :=
  let readSize := length units in
  if (0 <? readSize)%nat
     && Win32.IS_HIGH_SURROGATE (nth (readSize - 1) units 0)
  then
    (* try to read one more character *)
    let '(ok, extra, con') := Win32.ReadConsoleW con 1 in
    if ok && (length extra =? 1)%nat
    then (units ++ extra, con')
    else (units, con')
  else (units, con).

(** [int_type U8ConsoleIstreamBufWin32::underflow()] *)
Definition underflow (sb : U8ConsoleIstreamBufWin32) (con : Win32.console_in)
  : outcome int_type * U8ConsoleIstreamBufWin32 * Win32.console_in :=
  if (egptr sb <=? gptr sb)%nat then
    let '(ok, units, con1) := Win32.ReadConsoleW con (ARRAYSIZE_wideBuffer - 2) in
    if negb ok then (Normal eof, sb, con1)
    else
      let '(wideBuffer, con2) := complete_surrogate units con1 in
      (* wideBuffer[readSize] = L'\0'; m_buffer = u8narrow(wideBuffer) *)
      match u8narrow_cstr (wideBuffer ++ [0]) u8_default_throw with
      | Throws what => (Exception what, sb, con2)
      | Value bytes =>
          let sb' := {| m_buffer := bytes; gptr := 0; egptr := length bytes |} in
          if (egptr sb' <=? gptr sb')%nat
          then (Normal eof, sb', con2)
          else (Normal (sgetc sb'), sb', con2)
      end
  else (Normal (sgetc sb), sb, con).

(* ------------------------------------------------------------------ *)
(** ** Well-formed text *)

Definition scalars (cps : list Z) : Prop :=
  Forall (fun cp => Win32.is_scalar cp = true) cps.

(** A valid UTF-8 string is the encoding of a sequence of scalar values. *)
Definition valid_utf8 (s : cstring) : Prop :=
  exists cps, scalars cps /\ s = Win32.utf8_encode cps.

Definition valid_utf16 (w : wstring) : Prop :=
  exists cps, scalars cps /\ w = Win32.utf16_encode cps.

(** The byte patterns of one encoded code point. *)
Inductive utf8_sequence : cstring -> Prop :=
| seq_ascii (a : byte) :
    uchar a < 128 -> utf8_sequence [a]
| seq_two (l c1 : byte) :
    192 <= uchar l < 224 ->
    is_utf8_continuation c1 = true ->
    utf8_sequence [l; c1]
| seq_three (l c1 c2 : byte) :
    224 <= uchar l < 240 ->
    is_utf8_continuation c1 = true -> is_utf8_continuation c2 = true ->
    utf8_sequence [l; c1; c2]
| seq_four (l c1 c2 c3 : byte) :
    240 <= uchar l < 248 ->
    is_utf8_continuation c1 = true -> is_utf8_continuation c2 = true ->
    is_utf8_continuation c3 = true ->
    utf8_sequence [l; c1; c2; c3].

(** A pending tail that belongs to valid text: the first bytes of one
    encoded multi-byte code point, and not all of them unless the code point
    takes three bytes. *)
Definition pending_tail (q : cstring) : Prop :=
  q = [] \/
  exists cp rest,
    Win32.is_scalar cp = true /\ 128 <= cp /\
    Win32.utf8_of_cp cp = q ++ rest /\
    (rest <> [] \/ 2048 <= cp < 65536).

(** The code points of complete text that [sync] keeps back: the last one,
    when it is encoded in three bytes. *)
Definition withheld (cps : list Z) : list Z :=
  match rev cps with
  | [] => []
  | cp :: _ => if (2048 <=? cp) && (cp <? 65536) then [cp] else []
  end.

(** Splitting a string into consecutive non-empty chunks. *)
Definition chunking (s : cstring) (chunks : list cstring) : Prop :=
  concat chunks = s /\ Forall (fun c => c <> []) chunks.

(** A terminal with nothing written yet. *)
Definition console_out_init : Win32.console_out :=
  {| Win32.write_script := []; Win32.write_log := [] |}.

(** [INT_MAX] times the letter [a]: a text [u8widen] refuses for its length. *)
Definition letter_a : byte := x61.
Definition huge_text : cstring :=
  letter_a :: repeat letter_a (Z.to_nat (INT_MAX - 1)).

(* ------------------------------------------------------------------ *)
(** ** The rest of [libpu8.h] *)

(** [std::strlen]: the bytes before the first terminator. *)
Fixpoint cstr (buffer : cstring) : cstring :=
  match buffer with
  | [] => []
  | c :: rest => if uchar c =? 0 then [] else c :: cstr rest
  end.

(** [u8widen(const char* s, bool throw_on_inv_chars = u8_default_throw)]:
    the length is [strlen(s)]. *)
Definition u8widen_cstr (buffer : cstring) (throw_on_inv_chars : bool) : thrown wstring :=
  u8widen (cstr buffer) throw_on_inv_chars.

(** *** The argument vector of [main_utf8] *)

(** [WideCharToMultiByte(CP_UTF8, dwFlags, s, -1, ...)]: with the length -1
    the primitive converts the string up to and including its terminator. *)
Definition WideCharToMultiByte_sz (dwFlags : Z) (lpWideCharStr : wstring)
           (cbMultiByte : Z) : Z * cstring :=
  Win32.WideCharToMultiByte dwFlags (wcs lpWideCharStr ++ [0]) cbMultiByte.

(** A [char**]: every entry is a null pointer or points to a [char] array. *)
Record u8_argv_buf := {
  argc : nat;
  argv : list (option cstring)
}.

(** [u8_argv_buf(int _argc)]: [argc + 1] null pointers. *)
Definition u8_argv_buf_new (_argc : nat) : u8_argv_buf :=
  {| argc := _argc; argv := repeat None (_argc + 1) |}.

(** [a[i] = v] *)
Fixpoint store {A} (i : nat) (v : A) (a : list A) : list A :=
  match a, i with
  | [], _ => []
  | _ :: rest, O => v :: rest
  | x :: rest, S i' => x :: store i' v rest
  end.

(** One turn of the loop of [wmain]: [new char[utf8_bytes]], filled by the
    second call of the primitive. *)
Definition convert_argument (warg : wstring) : cstring :=
  let utf8_bytes := fst (WideCharToMultiByte_sz 0 warg 0) in
  resized_and_filled x00 utf8_bytes (snd (WideCharToMultiByte_sz 0 warg utf8_bytes)).

(** [for (int i = 0; i < argc; ++i) ab.argv[i] = ...], entered at [i] with
    [count = argc - i] turns to go. *)
Fixpoint convert_arguments (count i : nat) (wargv : list wstring)
         (ab : u8_argv_buf) : u8_argv_buf :=
  match count with
  | O => ab
  | S count' =>
      convert_arguments count' (S i) wargv
        {| argc := argc ab;
           argv := store i (Some (convert_argument (nth i wargv []))) (argv ab) |}
  end.

(** [u8_argv_copy(u8_argv_buf& ab)]: a copy of the [argc + 1] pointers. *)
Definition u8_argv_copy (ab : u8_argv_buf) : list (option cstring) :=
  firstn (argc ab + 1) (argv ab).

(** The body of [wmain] between the stream fixers and the call of
    [main_utf8_]: the argument vector handed to the program. *)
Definition wmain_argv (_argc : nat) (wargv : list wstring) : list (option cstring) :=
  u8_argv_copy (convert_arguments _argc 0 wargv (u8_argv_buf_new _argc)).

(** *** The stream fixers *)

(** A [std::streambuf*]: null, a buffer the stream had before, or the
    console buffer owned by the fixer ([m_csb.get()]). *)
Inductive streambuf_ptr : Type :=
| nullptr
| foreign (id : nat)
| m_csb_get.

Definition is_null (p : streambuf_ptr) : bool :=
  match p with nullptr => true | _ => false end.

(** A standard stream: its buffer, and the buffers it was flushed on. *)
Record ios := {
  rdbuf : streambuf_ptr;
  flushed : list streambuf_ptr
}.

Definition FILE_TYPE_CHAR : Z := 2.

Record stream_fixer := {
  m_sb_backup : streambuf_ptr;
  m_csb : bool                  (* whether a console buffer was created *)
}.

(** [std::ostream::flush()]: the buffer in place is synchronised, if there
    is one. *)
Definition ios_flush (stream : ios) : ios :=
  if is_null (rdbuf stream) then stream
  else {| rdbuf := rdbuf stream; flushed := flushed stream ++ [rdbuf stream] |}.

(** [U8StdInStreamFixer(DWORD handleId, std::istream& stream)]; [file_type]
    is [GetFileType(GetStdHandle(handleId))]. *)
Definition U8StdInStreamFixer_ctor (file_type : Z) (stream : ios)
  : stream_fixer * ios :=
  if file_type =? FILE_TYPE_CHAR
  then ({| m_sb_backup := rdbuf stream; m_csb := true |},
        {| rdbuf := m_csb_get; flushed := flushed stream |})
  else ({| m_sb_backup := nullptr; m_csb := false |}, stream).

(** [~U8StdInStreamFixer()] *)
Definition U8StdInStreamFixer_dtor (fixer : stream_fixer) (stream : ios) : ios :=
  if negb (is_null (m_sb_backup fixer))
  then {| rdbuf := m_sb_backup fixer; flushed := flushed stream |}
  else stream.

(** [U8StdOutStreamFixer(DWORD handleId, std::ostream& stream)] *)
Definition U8StdOutStreamFixer_ctor (file_type : Z) (stream : ios)
  : stream_fixer * ios :=
  if file_type =? FILE_TYPE_CHAR
  then
    let stream1 := ios_flush stream in
    ({| m_sb_backup := rdbuf stream1; m_csb := true |},
     {| rdbuf := m_csb_get; flushed := flushed stream1 |})
  else ({| m_sb_backup := nullptr; m_csb := false |}, stream).

(** [~U8StdOutStreamFixer()] *)
Definition U8StdOutStreamFixer_dtor (fixer : stream_fixer) (stream : ios) : ios :=
  if negb (is_null (m_sb_backup fixer))
  then
    let stream1 := ios_flush stream in
    {| rdbuf := m_sb_backup fixer; flushed := flushed stream1 |}
  else stream.

(** *** Text used in the statements *)

Definition is_continuation_run (cs : cstring) : Prop :=
  Forall (fun c => is_utf8_continuation c = true) cs.

(** The code points of complete text that one [sync] sends on. *)
Definition released (cps : list Z) : list Z :=
  firstn (length cps - length (withheld cps)) cps.

(** Code units that fit a [wchar_t]. *)
Definition wchars (w : wstring) : Prop :=
  Forall (fun u => 0 <= u < 65536) w.

(** A terminal script whose replies hold 16-bit code units. *)
Definition replies_wchars (script : list Win32.read_reply) : Prop :=
  Forall (fun rp => wchars (Win32.read_units rp)) script.

(* ================================================================== *)
(** * Properties *)

(** ** Bytes *)

Lemma uchar_range (c : byte) : 0 <= uchar c < 256.
Proof.
  unfold uchar. pose proof (Byte.to_N_bounded c). lia.
Qed.

Lemma uchar_byte_of_Z (z : Z) : 0 <= z < 256 -> uchar (byte_of_Z z) = z.
Proof.
  intros Hz. unfold uchar, byte_of_Z.
  rewrite Z.mod_small by lia.
  destruct (Byte.of_N (Z.to_N z)) as [b|] eqn:E.
  - apply Byte.to_of_N in E. rewrite E. lia.
  - apply Byte.of_N_None_iff in E. lia.
Qed.

Lemma byte_of_Z_uchar (c : byte) : byte_of_Z (uchar c) = c.
Proof.
  unfold byte_of_Z, uchar. pose proof (Byte.to_N_bounded c).
  rewrite Z.mod_small by lia. rewrite N2Z.id, Byte.of_to_N. reflexivity.
Qed.

Lemma is_utf8_continuation_range (c : byte) :
  is_utf8_continuation c = (128 <=? uchar c) && (uchar c <=? 191).
Proof. destruct c; reflexivity. Qed.

Lemma is_utf8_leading_range (c : byte) :
  is_utf8_leading c = (192 <=? uchar c).
Proof. destruct c; reflexivity. Qed.

(** The classifier, by ranges of the byte value. *)
Lemma num_succeeding_bytes_ranges (c : byte) :
  num_succeeding_bytes c =
  if uchar c <? 128 then Returns 0
  else if uchar c <? 192 then AssertFails 0
  else if uchar c <? 224 then Returns 1
  else Returns 3.
Proof. destruct c; reflexivity. Qed.

(** ** The backward scan *)

Lemma at_index_app_mid (pre : cstring) (x : byte) (post : cstring) :
  at_index (pre ++ x :: post) (length (pre ++ x :: post) - length post - 1) = x.
Proof.
  unfold at_index. rewrite length_app. cbn [length].
  replace (length pre + S (length post) - length post - 1)%nat
    with (length pre) by lia.
  rewrite app_nth2 by lia. rewrite Nat.sub_diag. reflexivity.
Qed.

Lemma skip_continuation_stop (fuel : nat) (pre : cstring) (x : byte) (cs : cstring) :
  is_utf8_continuation x = false ->
  skip_continuation fuel (pre ++ x :: cs) (length cs) = length cs.
Proof.
  intros Hx. destruct fuel as [|fuel]; [reflexivity|].
  cbn [skip_continuation]. rewrite at_index_app_mid, Hx, andb_false_r.
  reflexivity.
Qed.

Lemma skip_continuation_end (fuel : nat) (s : cstring) :
  skip_continuation fuel s (length s) = length s.
Proof.
  destruct fuel as [|fuel]; [reflexivity|].
  cbn [skip_continuation]. rewrite Nat.ltb_irrefl. reflexivity.
Qed.

Lemma skip_continuation_run (cs1 : cstring) :
  forall (cs2 pre : cstring) (fuel : nat),
    Forall (fun c => is_utf8_continuation c = true) cs1 ->
    (length cs1 <= fuel)%nat ->
    skip_continuation fuel (pre ++ cs1 ++ cs2) (length cs2) =
    skip_continuation (fuel - length cs1) (pre ++ cs1 ++ cs2)
                      (length cs1 + length cs2).
Proof.
  induction cs1 as [|c cs1 IH] using rev_ind; intros cs2 pre fuel Hc Hf.
  - cbn. rewrite Nat.sub_0_r. reflexivity.
  - apply Forall_app in Hc. destruct Hc as [Hc1 Hc].
    inversion Hc as [|? ? Hcc _]; subst.
    rewrite length_app in Hf. cbn [length] in Hf.
    destruct fuel as [|fuel]; [lia|].
    cbn [skip_continuation].
    replace (pre ++ (cs1 ++ [c]) ++ cs2) with ((pre ++ cs1) ++ c :: cs2)
      by (rewrite <- !app_assoc; reflexivity).
    rewrite at_index_app_mid, Hcc, andb_true_r.
    assert (Hlt : (length cs2 <? length ((pre ++ cs1) ++ c :: cs2))%nat = true).
    { apply Nat.ltb_lt. rewrite length_app. cbn [length]. lia. }
    rewrite Hlt.
    replace ((pre ++ cs1) ++ c :: cs2) with (pre ++ cs1 ++ c :: cs2)
      by (rewrite <- app_assoc; reflexivity).
    change (S (length cs2)) with (length (c :: cs2)).
    rewrite IH by (trivial; lia).
    rewrite length_app. cbn [length].
    f_equal; lia.
Qed.

(** Every string is a run of continuation bytes, preceded by nothing or by a
    byte that is not one. *)
Lemma trailing_run_split (s : cstring) :
  exists pre cs,
    s = pre ++ cs /\
    Forall (fun c => is_utf8_continuation c = true) cs /\
    (pre = [] \/ exists pre' x, pre = pre' ++ [x] /\ is_utf8_continuation x = false).
Proof.
  induction s as [|c s IH] using rev_ind.
  - exists [], []. repeat split; auto.
  - destruct (is_utf8_continuation c) eqn:Hc.
    + destruct IH as (pre & cs & -> & Hcs & Hpre).
      exists pre, (cs ++ [c]). rewrite app_assoc. repeat split; auto.
      apply Forall_app. split; auto.
    + exists (s ++ [c]), []. rewrite app_nil_r. repeat split; auto.
      right. exists s, c. auto.
Qed.

Lemma skip_continuation_from_zero (fuel : nat) (pre cs : cstring) :
  Forall (fun c => is_utf8_continuation c = true) cs ->
  (pre = [] \/ exists pre' x, pre = pre' ++ [x] /\ is_utf8_continuation x = false) ->
  (length cs <= fuel)%nat ->
  skip_continuation fuel (pre ++ cs) 0 = length cs.
Proof.
  intros Hcs Hpre Hf.
  pose proof (skip_continuation_run cs [] pre fuel Hcs Hf) as H.
  rewrite app_nil_r in H. cbn [length] in H. rewrite Nat.add_0_r in H.
  rewrite H. destruct Hpre as [-> | (pre' & x & -> & Hx)].
  - cbn [app]. apply skip_continuation_end.
  - rewrite <- app_assoc. cbn [app]. apply skip_continuation_stop. exact Hx.
Qed.

(** The fuel of [trailing_continuation] is enough: more fuel leaves the same
    [result], so the loop has reached its exit condition. *)
Lemma skip_continuation_fuel (s : cstring) (fuel : nat) :
  (length s <= fuel)%nat ->
  skip_continuation fuel s 0 = trailing_continuation s.
Proof.
  intros Hf. unfold trailing_continuation.
  destruct (trailing_run_split s) as (pre & cs & -> & Hcs & Hpre).
  rewrite !skip_continuation_from_zero; auto; rewrite length_app in *; lia.
Qed.

Lemma trailing_continuation_run (pre : cstring) (x : byte) (cs : cstring) :
  is_utf8_continuation x = false ->
  Forall (fun c => is_utf8_continuation c = true) cs ->
  trailing_continuation (pre ++ x :: cs) = length cs.
Proof.
  intros Hx Hcs. unfold trailing_continuation.
  replace (pre ++ x :: cs) with ((pre ++ [x]) ++ cs)
    by (rewrite <- app_assoc; reflexivity).
  apply skip_continuation_from_zero; auto.
  - right. exists pre, x. auto.
  - rewrite length_app. lia.
Qed.

Lemma trailing_continuation_all (cs : cstring) :
  Forall (fun c => is_utf8_continuation c = true) cs ->
  trailing_continuation cs = length cs.
Proof.
  intros Hcs. unfold trailing_continuation.
  apply (skip_continuation_from_zero (length cs) [] cs); auto.
Qed.

(** ** [num_trailing_partial_bytes] by the shape of the end of the string *)

Lemma continuation_not_leading (c : byte) :
  is_utf8_continuation c = true -> is_utf8_leading c = false.
Proof. destruct c; cbv; congruence. Qed.

Lemma last_of_run (pre : cstring) (x : byte) (cs : cstring) :
  Forall (fun c => is_utf8_continuation c = true) cs ->
  cs <> [] ->
  is_utf8_leading (last (pre ++ x :: cs) x00) = false.
Proof.
  intros Hcs Hne. destruct (exists_last Hne) as (cs' & c & ->).
  replace (pre ++ x :: cs' ++ [c]) with ((pre ++ x :: cs') ++ [c])
    by (rewrite <- app_assoc; reflexivity).
  rewrite last_last. apply continuation_not_leading.
  apply Forall_app in Hcs. destruct Hcs as [_ Hc]. inversion Hc; assumption.
Qed.

(** The string ends with a byte that is no continuation byte. *)
Lemma num_trailing_partial_bytes_single (pre : cstring) (x : byte) :
  is_utf8_continuation x = false ->
  num_trailing_partial_bytes (pre ++ [x]) =
  if is_utf8_leading x then Returns 1%nat else Returns 0%nat.
Proof.
  intros Hx. unfold num_trailing_partial_bytes.
  destruct (pre ++ [x]) as [|b s] eqn:E; [destruct pre; discriminate|].
  rewrite <- E. rewrite last_last.
  destruct (is_utf8_leading x); [reflexivity|].
  rewrite (trailing_continuation_run pre x []) by auto.
  reflexivity.
Qed.

(** The string ends with a non-empty run of continuation bytes that follows
    a byte [x] which is none: [x] is classified and compared with the run. *)
Lemma num_trailing_partial_bytes_run (pre : cstring) (x : byte) (cs : cstring) :
  is_utf8_continuation x = false ->
  Forall (fun c => is_utf8_continuation c = true) cs ->
  cs <> [] ->
  num_trailing_partial_bytes (pre ++ x :: cs) =
  (n <~ num_succeeding_bytes x ;;
   if n =? Z.of_nat (length cs) then Returns 0%nat else Returns (S (length cs))).
Proof.
  intros Hx Hcs Hne. unfold num_trailing_partial_bytes.
  destruct (pre ++ x :: cs) as [|b s] eqn:E; [destruct pre; discriminate|].
  rewrite <- E. rewrite last_of_run by assumption.
  rewrite trailing_continuation_run by assumption.
  rewrite at_index_app_mid.
  assert (H0 : (0 <? length cs)%nat = true).
  { apply Nat.ltb_lt. destruct cs; [congruence | cbn; lia]. }
  assert (H1 : (length cs <? length (pre ++ x :: cs))%nat = true).
  { apply Nat.ltb_lt. rewrite length_app. cbn [length]. lia. }
  rewrite H0, H1. reflexivity.
Qed.

(** The string holds continuation bytes only. *)
Lemma num_trailing_partial_bytes_all (cs : cstring) :
  Forall (fun c => is_utf8_continuation c = true) cs ->
  num_trailing_partial_bytes cs = Returns (length cs).
Proof.
  intros Hcs. unfold num_trailing_partial_bytes.
  destruct cs as [|b s] eqn:E; [reflexivity|]. rewrite <- E in *.
  assert (Hne : cs <> []) by (subst; discriminate).
  destruct (exists_last Hne) as (cs' & c & E').
  assert (Hl : is_utf8_leading (last cs x00) = false).
  { rewrite E', last_last. apply continuation_not_leading.
    rewrite E' in Hcs. apply Forall_app in Hcs. destruct Hcs as [_ Hc].
    inversion Hc; assumption. }
  rewrite Hl, trailing_continuation_all by assumption.
  rewrite Nat.ltb_irrefl, andb_false_r. reflexivity.
Qed.

Lemma classifier_argument_run (pre : cstring) (x : byte) (cs : cstring) :
  is_utf8_continuation x = false ->
  Forall (fun c => is_utf8_continuation c = true) cs ->
  classifier_argument (pre ++ x :: cs) =
  match cs with [] => None | _ => Some x end.
Proof.
  intros Hx Hcs. unfold classifier_argument.
  destruct (pre ++ x :: cs) as [|b s] eqn:E; [destruct pre; discriminate|].
  rewrite <- E. destruct cs as [|c cs'] eqn:Ecs.
  - rewrite last_last. destruct (is_utf8_leading x); [reflexivity|].
    rewrite (trailing_continuation_run pre x []) by auto. reflexivity.
  - rewrite <- Ecs in *.
    rewrite last_of_run by (subst; auto; discriminate).
    rewrite trailing_continuation_run by assumption.
    rewrite at_index_app_mid.
    assert (H0 : (0 <? length cs)%nat = true)
      by (apply Nat.ltb_lt; subst; cbn; lia).
    assert (H1 : (length cs <? length (pre ++ x :: cs))%nat = true).
    { apply Nat.ltb_lt. rewrite length_app. cbn [length]. lia. }
    rewrite H0, H1. reflexivity.
Qed.

Lemma classifier_argument_all (cs : cstring) :
  Forall (fun c => is_utf8_continuation c = true) cs ->
  classifier_argument cs = None.
Proof.
  intros Hcs. unfold classifier_argument.
  destruct cs as [|b s] eqn:E; [reflexivity|]. rewrite <- E in *.
  destruct (is_utf8_leading (last cs x00)); [reflexivity|].
  rewrite trailing_continuation_all by assumption.
  rewrite Nat.ltb_irrefl, andb_false_r. reflexivity.
Qed.

(** [classifier_argument] is the argument of the one call of the classifier
    in [num_trailing_partial_bytes]. *)
Lemma num_trailing_partial_bytes_call (s : cstring) :
  match classifier_argument s with
  | Some x =>
      num_trailing_partial_bytes s =
      (n <~ num_succeeding_bytes x ;;
       if n =? Z.of_nat (trailing_continuation s)
       then Returns 0%nat else Returns (S (trailing_continuation s)))
  | None => asserts (num_trailing_partial_bytes s) = false
  end.
Proof.
  unfold classifier_argument, num_trailing_partial_bytes.
  destruct s as [|b s']; [reflexivity|].
  destruct (is_utf8_leading (last (b :: s') x00)); [reflexivity|].
  cbv zeta.
  destruct ((0 <? trailing_continuation (b :: s'))%nat
            && (trailing_continuation (b :: s') <? length (b :: s'))%nat);
    reflexivity.
Qed.

(** ** The encoding forms *)

Lemma is_trail_continuation (c : byte) :
  Win32.is_trail c = is_utf8_continuation c.
Proof. unfold Win32.is_trail. rewrite is_utf8_continuation_range. reflexivity. Qed.

Lemma is_scalar_range (cp : Z) :
  Win32.is_scalar cp = true <->
  0 <= cp <= 1114111 /\ ~ (55296 <= cp <= 57343).
Proof. unfold Win32.is_scalar. lia. Qed.

Ltac byte_value :=
  rewrite ?is_utf8_continuation_range;
  rewrite ?uchar_byte_of_Z by (Z.div_mod_to_equations; lia);
  try (Z.div_mod_to_equations; lia).

Lemma utf8_of_cp_sequence (cp : Z) :
  Win32.is_scalar cp = true -> utf8_sequence (Win32.utf8_of_cp cp).
Proof.
  intros Hs. apply is_scalar_range in Hs. unfold Win32.utf8_of_cp.
  destruct (Z.ltb_spec cp 128); [constructor; byte_value|].
  destruct (Z.ltb_spec cp 2048); [constructor; byte_value|].
  destruct (Z.ltb_spec cp 65536); constructor; byte_value.
Qed.

Lemma utf8_of_cp_length (cp : Z) :
  length (Win32.utf8_of_cp cp) =
  if cp <? 128 then 1%nat else if cp <? 2048 then 2%nat
  else if cp <? 65536 then 3%nat else 4%nat.
Proof.
  unfold Win32.utf8_of_cp.
  destruct (cp <? 128), (cp <? 2048), (cp <? 65536); reflexivity.
Qed.

Lemma utf8_of_cp_nonempty (cp : Z) : Win32.utf8_of_cp cp <> [].
Proof.
  unfold Win32.utf8_of_cp.
  destruct (cp <? 128), (cp <? 2048), (cp <? 65536); discriminate.
Qed.

Lemma utf16_of_cp_nonempty (cp : Z) : Win32.utf16_of_cp cp <> [].
Proof. unfold Win32.utf16_of_cp. destruct (cp <? 65536); discriminate. Qed.

Lemma utf8_encode_app (a b : list Z) :
  Win32.utf8_encode (a ++ b) = Win32.utf8_encode a ++ Win32.utf8_encode b.
Proof. apply flat_map_app. Qed.

Lemma utf16_encode_app (a b : list Z) :
  Win32.utf16_encode (a ++ b) = Win32.utf16_encode a ++ Win32.utf16_encode b.
Proof. apply flat_map_app. Qed.

Lemma utf8_encode_nil_inv (cps : list Z) :
  Win32.utf8_encode cps = [] -> cps = [].
Proof.
  destruct cps as [|cp cps]; [reflexivity|]. cbn. intros H.
  apply app_eq_nil in H. destruct H as [H _].
  now apply utf8_of_cp_nonempty in H.
Qed.

Lemma utf16_encode_nil_inv (cps : list Z) :
  Win32.utf16_encode cps = [] -> cps = [].
Proof.
  destruct cps as [|cp cps]; [reflexivity|]. cbn. intros H.
  apply app_eq_nil in H. destruct H as [H _].
  now apply utf16_of_cp_nonempty in H.
Qed.

(** Decoding undoes encoding, one scalar value at a time. *)
Lemma utf8_decode_of_cp (strict : bool) (cp : Z) (rest : cstring) :
  Win32.is_scalar cp = true ->
  Win32.utf8_decode strict (Win32.utf8_of_cp cp ++ rest) =
  option_map (cons cp) (Win32.utf8_decode strict rest).
Proof.
  intros Hs. pose proof Hs as Hr. apply is_scalar_range in Hr.
  unfold Win32.utf8_of_cp.
  destruct (Z.ltb_spec cp 128) as [H1|H1].
  { cbn [app Win32.utf8_decode]. rewrite uchar_byte_of_Z by lia.
    destruct (Z.ltb_spec cp 128); [reflexivity | lia]. }
  destruct (Z.ltb_spec cp 2048) as [H2|H2].
  { cbn [app Win32.utf8_decode]. unfold Win32.is_trail, Win32.trail.
    rewrite !uchar_byte_of_Z by (Z.div_mod_to_equations; lia).
    replace (192 + cp / 64 <? 128) with false by (symmetry; Z.div_mod_to_equations; lia).
    replace ((192 <=? 192 + cp / 64) && (192 + cp / 64 <? 224)) with true
      by (symmetry; Z.div_mod_to_equations; lia).
    replace ((192 + cp / 64 - 192) * 64 + (128 + cp mod 64 - 128)) with cp
      by (Z.div_mod_to_equations; lia).
    replace ((128 <=? 128 + cp mod 64) && (128 + cp mod 64 <=? 191) && (128 <=? cp))
      with true by (symmetry; Z.div_mod_to_equations; lia).
    reflexivity. }
  destruct (Z.ltb_spec cp 65536) as [H3|H3].
  { cbn [app Win32.utf8_decode]. unfold Win32.is_trail, Win32.trail.
    rewrite !uchar_byte_of_Z by (Z.div_mod_to_equations; lia).
    replace (224 + cp / 4096 <? 128) with false by (symmetry; Z.div_mod_to_equations; lia).
    replace ((192 <=? 224 + cp / 4096) && (224 + cp / 4096 <? 224)) with false
      by (symmetry; Z.div_mod_to_equations; lia).
    replace ((224 <=? 224 + cp / 4096) && (224 + cp / 4096 <? 240)) with true
      by (symmetry; Z.div_mod_to_equations; lia).
    replace ((224 + cp / 4096 - 224) * 4096 + (128 + (cp / 64) mod 64 - 128) * 64
             + (128 + cp mod 64 - 128)) with cp
      by (Z.div_mod_to_equations; lia).
    rewrite Hs.
    replace ((128 <=? 128 + (cp / 64) mod 64) && (128 + (cp / 64) mod 64 <=? 191)
             && ((128 <=? 128 + cp mod 64) && (128 + cp mod 64 <=? 191))
             && (2048 <=? cp) && true)
      with true by (symmetry; Z.div_mod_to_equations; lia).
    reflexivity. }
  cbn [app Win32.utf8_decode]. unfold Win32.is_trail, Win32.trail.
  rewrite !uchar_byte_of_Z by (Z.div_mod_to_equations; lia).
  replace (240 + cp / 262144 <? 128) with false by (symmetry; Z.div_mod_to_equations; lia).
  replace ((192 <=? 240 + cp / 262144) && (240 + cp / 262144 <? 224)) with false
    by (symmetry; Z.div_mod_to_equations; lia).
  replace ((224 <=? 240 + cp / 262144) && (240 + cp / 262144 <? 240)) with false
    by (symmetry; Z.div_mod_to_equations; lia).
  replace ((240 <=? 240 + cp / 262144) && (240 + cp / 262144 <? 248)) with true
    by (symmetry; Z.div_mod_to_equations; lia).
  replace ((240 + cp / 262144 - 240) * 262144 + (128 + (cp / 4096) mod 64 - 128) * 4096
           + (128 + (cp / 64) mod 64 - 128) * 64 + (128 + cp mod 64 - 128)) with cp
    by (Z.div_mod_to_equations; lia).
  rewrite Hs.
  replace ((128 <=? 128 + (cp / 4096) mod 64) && (128 + (cp / 4096) mod 64 <=? 191)
           && ((128 <=? 128 + (cp / 64) mod 64) && (128 + (cp / 64) mod 64 <=? 191))
           && ((128 <=? 128 + cp mod 64) && (128 + cp mod 64 <=? 191))
           && (65536 <=? cp) && true)
    with true by (symmetry; Z.div_mod_to_equations; lia).
  reflexivity.
Qed.

Lemma utf8_decode_encode (strict : bool) (cps : list Z) :
  scalars cps ->
  Win32.utf8_decode strict (Win32.utf8_encode cps) = Some cps.
Proof.
  induction 1 as [|cp cps Hcp _ IH]; [reflexivity|].
  change (Win32.utf8_encode (cp :: cps))
    with (Win32.utf8_of_cp cp ++ Win32.utf8_encode cps).
  rewrite utf8_decode_of_cp, IH by assumption. reflexivity.
Qed.

Lemma utf16_decode_of_cp (strict : bool) (cp : Z) (rest : wstring) :
  Win32.is_scalar cp = true ->
  Win32.utf16_decode strict (Win32.utf16_of_cp cp ++ rest) =
  option_map (cons cp) (Win32.utf16_decode strict rest).
Proof.
  intros Hs. apply is_scalar_range in Hs. unfold Win32.utf16_of_cp.
  destruct (Z.ltb_spec cp 65536) as [H|H]; cbn [app Win32.utf16_decode];
    unfold Win32.IS_HIGH_SURROGATE, Win32.IS_LOW_SURROGATE.
  - replace ((55296 <=? cp) && (cp <=? 56319)) with false by (symmetry; lia).
    replace ((56320 <=? cp) && (cp <=? 57343)) with false by (symmetry; lia).
    reflexivity.
  - replace ((55296 <=? 55296 + (cp - 65536) / 1024)
             && (55296 + (cp - 65536) / 1024 <=? 56319))
      with true by (symmetry; Z.div_mod_to_equations; lia).
    replace ((56320 <=? 56320 + (cp - 65536) mod 1024)
             && (56320 + (cp - 65536) mod 1024 <=? 57343))
      with true by (symmetry; Z.div_mod_to_equations; lia).
    replace (65536 + (55296 + (cp - 65536) / 1024 - 55296) * 1024
             + (56320 + (cp - 65536) mod 1024 - 56320)) with cp
      by (Z.div_mod_to_equations; lia).
    reflexivity.
Qed.

Lemma utf16_decode_encode (strict : bool) (cps : list Z) :
  scalars cps ->
  Win32.utf16_decode strict (Win32.utf16_encode cps) = Some cps.
Proof.
  induction 1 as [|cp cps Hcp _ IH]; [reflexivity|].
  change (Win32.utf16_encode (cp :: cps))
    with (Win32.utf16_of_cp cp ++ Win32.utf16_encode cps).
  rewrite utf16_decode_of_cp, IH by assumption. reflexivity.
Qed.

(** *** The wrappers over the primitives *)

Lemma resized_and_filled_exact {A} (zero : A) (out : list A) :
  resized_and_filled zero (Z.of_nat (length out)) out = out.
Proof.
  unfold resized_and_filled. rewrite Nat2Z.id.
  rewrite skipn_all2 by (rewrite repeat_length; lia).
  apply app_nil_r.
Qed.

Lemma report_size {A} (out : list A) :
  Z.of_nat (length out) <= INT_MAX ->
  fst (Win32.report (Some out) 0) = Z.of_nat (length out).
Proof.
  intros Hfit. unfold Win32.report.
  destruct (Z.ltb_spec INT_MAX (Z.of_nat (length out))); [lia | reflexivity].
Qed.

Lemma report_fill {A} (out : list A) :
  out <> [] ->
  Z.of_nat (length out) <= INT_MAX ->
  snd (Win32.report (Some out) (Z.of_nat (length out))) = out.
Proof.
  intros Hne Hfit. unfold Win32.report.
  destruct (Z.ltb_spec INT_MAX (Z.of_nat (length out))); [lia|].
  destruct (Z.eqb_spec (Z.of_nat (length out)) 0) as [E|E].
  - destruct out; [congruence | cbn in E; lia].
  - rewrite Z.leb_refl. reflexivity.
Qed.

(** *** How long the converted text can be *)

Lemma utf16_encode_cons (cp : Z) (cps : list Z) :
  Win32.utf16_encode (cp :: cps) = Win32.utf16_of_cp cp ++ Win32.utf16_encode cps.
Proof. reflexivity. Qed.

Lemma utf16_of_cp_length_le2 (cp : Z) : (length (Win32.utf16_of_cp cp) <= 2)%nat.
Proof. unfold Win32.utf16_of_cp. destruct (cp <? 65536); cbn; lia. Qed.

Lemma utf16_of_cp_length_one (cp : Z) :
  cp < 65536 -> length (Win32.utf16_of_cp cp) = 1%nat.
Proof.
  intros H. unfold Win32.utf16_of_cp.
  destruct (Z.ltb_spec cp 65536); [reflexivity | lia].
Qed.

Lemma option_map_cons_inv {A} (x : A) (o : option (list A)) (l : list A) :
  option_map (cons x) o = Some l -> exists l', o = Some l' /\ l = x :: l'.
Proof.
  destruct o as [l'|]; cbn; [|discriminate].
  intros H. injection H as <-. exists l'. split; reflexivity.
Qed.

(** The wide form of a text never has more units than the text has bytes,
    in either mode: the length reported by [MultiByteToWideChar] fits an
    [int] whenever the input length does. *)
Lemma utf8_decode_units_bounded (n : nat) :
  forall (strict : bool) (s : cstring) (cps : list Z),
    (length s <= n)%nat ->
    Win32.utf8_decode strict s = Some cps ->
    (length (Win32.utf16_encode cps) <= length s)%nat.
Proof.
  induction n as [|n IH]; intros strict s cps Hn H.
  - destruct s; [|cbn in Hn; lia]. cbn in H. injection H as <-. cbn. lia.
  - destruct s as [|b0 r0].
    { cbn in H. injection H as <-. cbn. lia. }
    cbn [length] in Hn. cbn [Win32.utf8_decode] in H.
    pose proof (uchar_range b0) as R0.
    repeat match type of H with
           | context [if ?b then _ else _] => destruct b
           | context [match ?l with [] => _ | _ :: _ => _ end] =>
               is_var l; destruct l
           end;
      try discriminate H;
      apply option_map_cons_inv in H; destruct H as (cps' & D & ->);
      apply IH in D; try (cbn [length] in *; lia);
      rewrite utf16_encode_cons, length_app;
      match goal with
      | |- (length (Win32.utf16_of_cp ?x) + _ <= _)%nat =>
          pose proof (utf16_of_cp_length_le2 x);
          try (assert (length (Win32.utf16_of_cp x) = 1%nat)
                by (apply utf16_of_cp_length_one;
                    first [reflexivity | lia]))
      end;
      cbn [length] in *; lia.
Qed.

Lemma utf8_decode_units (strict : bool) (s : cstring) (cps : list Z) :
  Win32.utf8_decode strict s = Some cps ->
  (length (Win32.utf16_encode cps) <= length s)%nat.
Proof. apply (utf8_decode_units_bounded (length s)). lia. Qed.

(** The narrow form of [n] code units has at most [4 * n] bytes, and at most
    [3 * n] when the units fit a [wchar_t]. *)
Lemma utf16_decode_bytes_bounded (n : nat) :
  forall (strict : bool) (w : wstring) (cps : list Z),
    (length w <= n)%nat ->
    Win32.utf16_decode strict w = Some cps ->
    (length (Win32.utf8_encode cps) <= 4 * length w)%nat.
Proof.
  induction n as [|n IH]; intros strict w cps Hn H.
  - destruct w; [|cbn in Hn; lia]. cbn in H. injection H as <-. cbn. lia.
  - destruct w as [|u r].
    { cbn in H. injection H as <-. cbn. lia. }
    cbn [length] in Hn. cbn [Win32.utf16_decode] in H.
    repeat match type of H with
           | context [if ?b then _ else _] => destruct b
           | context [match ?l with [] => _ | _ :: _ => _ end] =>
               is_var l; destruct l
           end;
      try discriminate H;
      apply option_map_cons_inv in H; destruct H as (cps' & D & ->);
      apply IH in D; try (cbn [length] in *; lia);
      change (Win32.utf8_encode (?x :: cps'))
        with (Win32.utf8_of_cp x ++ Win32.utf8_encode cps');
      rewrite length_app;
      match goal with
      | |- (length (Win32.utf8_of_cp ?x) + _ <= _)%nat =>
          pose proof (utf8_of_cp_length x) as HL;
          destruct (x <? 128), (x <? 2048), (x <? 65536)
      end;
      cbn [length] in *; lia.
Qed.

Lemma utf16_decode_bytes (strict : bool) (w : wstring) (cps : list Z) :
  Win32.utf16_decode strict w = Some cps ->
  (length (Win32.utf8_encode cps) <= 4 * length w)%nat.
Proof. apply (utf16_decode_bytes_bounded (length w)). lia. Qed.

Lemma utf16_decode_bytes_wchars_bounded (n : nat) :
  forall (strict : bool) (w : wstring) (cps : list Z),
    (length w <= n)%nat ->
    wchars w ->
    Win32.utf16_decode strict w = Some cps ->
    (length (Win32.utf8_encode cps) <= 3 * length w)%nat.
Proof.
  induction n as [|n IH]; intros strict w cps Hn Hw H.
  - destruct w; [|cbn in Hn; lia]. cbn in H. injection H as <-. cbn. lia.
  - destruct w as [|u r].
    { cbn in H. injection H as <-. cbn. lia. }
    cbn [length] in Hn. cbn [Win32.utf16_decode] in H.
    apply Forall_cons_iff in Hw. destruct Hw as [Hu Hr]. cbv beta in Hu.
    assert (step : forall (x : Z) (r' : wstring) (k : nat),
               (length r' <= n)%nat ->
               wchars r' ->
               (length (Win32.utf8_of_cp x) <= 3 * k)%nat ->
               option_map (cons x) (Win32.utf16_decode strict r') = Some cps ->
               (length (Win32.utf8_encode cps) <= 3 * (k + length r'))%nat).
    { intros x r' k Hr' Hw' Hx E.
      apply option_map_cons_inv in E. destruct E as (cps' & D & ->).
      apply (IH strict r' cps' Hr' Hw') in D.
      change (Win32.utf8_encode (x :: cps'))
        with (Win32.utf8_of_cp x ++ Win32.utf8_encode cps').
      rewrite length_app. lia. }
    assert (Hrep : (length (Win32.utf8_of_cp Win32.REPLACEMENT) <= 3 * 1)%nat)
      by (cbn; lia).
    assert (Hbmp : (length (Win32.utf8_of_cp u) <= 3 * 1)%nat).
    { rewrite utf8_of_cp_length.
      destruct (u <? 128), (u <? 2048), (Z.ltb_spec u 65536); lia. }
    assert (Hpair : forall x, (length (Win32.utf8_of_cp x) <= 3 * 2)%nat).
    { intros x. rewrite utf8_of_cp_length.
      destruct (x <? 128), (x <? 2048), (x <? 65536); lia. }
    destruct (Win32.IS_HIGH_SURROGATE u).
    + destruct r as [|l r'].
      * destruct strict; [discriminate H|].
        pose proof (step _ [] 1%nat ltac:(cbn; lia) Hr Hrep H) as B.
        cbn [length] in *. lia.
      * apply Forall_cons_iff in Hr. destruct Hr as [Hl Hr'].
        cbn [length] in Hn.
        destruct (Win32.IS_LOW_SURROGATE l).
        -- pose proof (step _ r' 2%nat ltac:(lia) Hr' (Hpair _) H) as B.
           cbn [length]. lia.
        -- destruct strict; [discriminate H|].
           assert (Hlr : wchars (l :: r')) by (constructor; assumption).
           pose proof (step _ (l :: r') 1%nat ltac:(cbn [length]; lia) Hlr Hrep H)
             as B.
           cbn [length] in *. lia.
    + destruct (Win32.IS_LOW_SURROGATE u).
      * destruct strict; [discriminate H|].
        pose proof (step _ r 1%nat ltac:(lia) Hr Hrep H) as B.
        cbn [length] in *. lia.
      * pose proof (step _ r 1%nat ltac:(lia) Hr Hbmp H) as B.
        cbn [length] in *. lia.
Qed.

Lemma utf16_decode_bytes_wchars (strict : bool) (w : wstring) (cps : list Z) :
  wchars w ->
  Win32.utf16_decode strict w = Some cps ->
  (length (Win32.utf8_encode cps) <= 3 * length w)%nat.
Proof. apply (utf16_decode_bytes_wchars_bounded (length w)). lia. Qed.

Lemma utf8_of_cp_length_units (cp : Z) :
  (length (Win32.utf8_of_cp cp) <= 3 * length (Win32.utf16_of_cp cp))%nat.
Proof.
  rewrite utf8_of_cp_length. unfold Win32.utf16_of_cp.
  destruct (Z.ltb_spec cp 128), (Z.ltb_spec cp 2048), (Z.ltb_spec cp 65536);
    cbn [length]; lia.
Qed.

Lemma utf8_encode_length_units (cps : list Z) :
  (length (Win32.utf8_encode cps) <= 3 * length (Win32.utf16_encode cps))%nat.
Proof.
  induction cps as [|cp cps IH]; [cbn; lia|].
  unfold Win32.utf16_encode, Win32.utf8_encode in *. cbn [flat_map].
  rewrite !length_app. pose proof (utf8_of_cp_length_units cp). lia.
Qed.

Lemma mb_flag (b : bool) :
  negb (Z.land (if b then Win32.MB_ERR_INVALID_CHARS else 0)
               Win32.MB_ERR_INVALID_CHARS =? 0) = b.
Proof. destruct b; reflexivity. Qed.

Lemma wc_flag (b : bool) :
  negb (Z.land (if b then Win32.WC_ERR_INVALID_CHARS else 0)
               Win32.WC_ERR_INVALID_CHARS =? 0) = b.
Proof. destruct b; reflexivity. Qed.

Lemma length_pos_Z {A} (l : list A) : l <> [] -> (0 <? Z.of_nat (length l)) = true.
Proof.
  destruct l; [congruence | intros _; apply Z.ltb_lt; cbn [length]; lia].
Qed.

Lemma length_zero_Z {A} (l : list A) : l <> [] -> (Z.of_nat (length l) =? 0) = false.
Proof.
  destruct l; [congruence | intros _; apply Z.eqb_neq; cbn [length]; lia].
Qed.

(** [u8widen] on an input of admissible length, in terms of the decoder. *)
Lemma u8widen_decoded (s : cstring) (strict : bool) (cps : list Z) :
  s <> [] ->
  Z.of_nat (length s) < INT_MAX ->
  Win32.utf8_decode strict s = Some cps ->
  cps <> [] ->
  u8widen s strict = Value (Win32.utf16_encode cps).
Proof.
  intros Hne Hlen Hdec Hcps. unfold u8widen.
  rewrite length_zero_Z by assumption.
  destruct (Z.ltb_spec (Z.of_nat (length s)) INT_MAX); [|lia].
  cbv zeta. unfold Win32.MultiByteToWideChar. cbv zeta.
  rewrite mb_flag, Hdec. cbn [option_map].
  assert (Hw : Win32.utf16_encode cps <> []).
  { intros E. now apply utf16_encode_nil_inv in E. }
  assert (Hfit : Z.of_nat (length (Win32.utf16_encode cps)) <= INT_MAX).
  { pose proof (utf8_decode_units strict s cps Hdec). lia. }
  rewrite report_size, length_pos_Z, report_fill by assumption.
  rewrite resized_and_filled_exact. reflexivity.
Qed.

Lemma u8widen_undecoded (s : cstring) (strict : bool) :
  s <> [] ->
  Win32.utf8_decode strict s = None ->
  u8widen s strict = Throws "utf8 to wide-string conversion failed."%string.
Proof.
  intros Hne Hdec. unfold u8widen.
  rewrite length_zero_Z by assumption.
  cbv zeta. unfold Win32.MultiByteToWideChar. cbv zeta.
  rewrite mb_flag, Hdec. cbn.
  destruct (Z.of_nat (length s) <? INT_MAX); reflexivity.
Qed.

Lemma u8widen_too_long (s : cstring) (strict : bool) :
  INT_MAX <= Z.of_nat (length s) ->
  u8widen s strict = Throws "utf8 to wide-string conversion failed."%string.
Proof.
  intros Hlen. unfold u8widen.
  destruct (Z.eqb_spec (Z.of_nat (length s)) 0); [unfold INT_MAX in Hlen; lia|].
  destruct (Z.ltb_spec (Z.of_nat (length s)) INT_MAX); [lia | reflexivity].
Qed.

Lemma u8narrow_decoded (w : wstring) (strict : bool) (cps : list Z) :
  w <> [] ->
  Z.of_nat (length w) < INT_MAX ->
  Win32.utf16_decode strict w = Some cps ->
  cps <> [] ->
  Z.of_nat (length (Win32.utf8_encode cps)) <= INT_MAX ->
  u8narrow w strict = Value (Win32.utf8_encode cps).
Proof.
  intros Hne Hlen Hdec Hcps Hfit. unfold u8narrow.
  rewrite length_zero_Z by assumption.
  destruct (Z.ltb_spec (Z.of_nat (length w)) INT_MAX); [|lia].
  cbv zeta. unfold Win32.WideCharToMultiByte. cbv zeta.
  rewrite wc_flag, Hdec. cbn [option_map].
  assert (Hw : Win32.utf8_encode cps <> []).
  { intros E. now apply utf8_encode_nil_inv in E. }
  rewrite report_size, length_pos_Z, report_fill by assumption.
  rewrite resized_and_filled_exact. reflexivity.
Qed.

Lemma u8narrow_undecoded (w : wstring) (strict : bool) :
  w <> [] ->
  Win32.utf16_decode strict w = None ->
  u8narrow w strict = Throws "wide-string to utf8 conversion failed."%string.
Proof.
  intros Hne Hdec. unfold u8narrow.
  rewrite length_zero_Z by assumption.
  cbv zeta. unfold Win32.WideCharToMultiByte. cbv zeta.
  rewrite wc_flag, Hdec. cbn.
  destruct (Z.of_nat (length w) <? INT_MAX); reflexivity.
Qed.

Lemma u8narrow_too_long (w : wstring) (strict : bool) :
  INT_MAX <= Z.of_nat (length w) ->
  u8narrow w strict = Throws "wide-string to utf8 conversion failed."%string.
Proof.
  intros Hlen. unfold u8narrow.
  destruct (Z.eqb_spec (Z.of_nat (length w)) 0); [unfold INT_MAX in Hlen; lia|].
  destruct (Z.ltb_spec (Z.of_nat (length w)) INT_MAX); [lia | reflexivity].
Qed.

(** The encodings of a text are never longer in UTF-16 units than in UTF-8
    bytes. *)
Lemma utf16_of_cp_shorter (cp : Z) :
  (length (Win32.utf16_of_cp cp) <= length (Win32.utf8_of_cp cp))%nat.
Proof.
  rewrite utf8_of_cp_length. unfold Win32.utf16_of_cp.
  destruct (Z.ltb_spec cp 128), (Z.ltb_spec cp 2048), (Z.ltb_spec cp 65536);
    cbn [length]; lia.
Qed.

Lemma utf16_encode_shorter (cps : list Z) :
  (length (Win32.utf16_encode cps) <= length (Win32.utf8_encode cps))%nat.
Proof.
  induction cps as [|cp cps IH]; [reflexivity|].
  unfold Win32.utf16_encode, Win32.utf8_encode in *. cbn [flat_map].
  rewrite !length_app. pose proof (utf16_of_cp_shorter cp). lia.
Qed.

(** ** What [num_trailing_partial_bytes] answers on valid text *)

Lemma not_continuation_of_range (x : byte) :
  uchar x < 128 \/ 192 <= uchar x -> is_utf8_continuation x = false.
Proof. rewrite is_utf8_continuation_range. lia. Qed.

Lemma leading_of_range (x : byte) : 192 <= uchar x -> is_utf8_leading x = true.
Proof. rewrite is_utf8_leading_range. lia. Qed.

Lemma num_succeeding_bytes_ascii (x : byte) :
  uchar x < 128 -> num_succeeding_bytes x = Returns 0.
Proof.
  intros H. rewrite num_succeeding_bytes_ranges.
  destruct (Z.ltb_spec (uchar x) 128); [reflexivity | lia].
Qed.

Lemma num_succeeding_bytes_two (x : byte) :
  192 <= uchar x < 224 -> num_succeeding_bytes x = Returns 1.
Proof.
  intros H. rewrite num_succeeding_bytes_ranges.
  destruct (Z.ltb_spec (uchar x) 128); [lia|].
  destruct (Z.ltb_spec (uchar x) 192); [lia|].
  destruct (Z.ltb_spec (uchar x) 224); [reflexivity | lia].
Qed.

Lemma num_succeeding_bytes_high (x : byte) :
  224 <= uchar x -> num_succeeding_bytes x = Returns 3.
Proof.
  intros H. rewrite num_succeeding_bytes_ranges.
  destruct (Z.ltb_spec (uchar x) 128); [lia|].
  destruct (Z.ltb_spec (uchar x) 192); [lia|].
  destruct (Z.ltb_spec (uchar x) 224); [lia | reflexivity].
Qed.

Lemma num_succeeding_bytes_no_assert (x : byte) :
  is_utf8_continuation x = false -> asserts (num_succeeding_bytes x) = false.
Proof. destruct x; cbv; congruence. Qed.

(** The text ends with a whole encoded code point: nothing is kept back,
    except when the code point takes three bytes. *)
Lemma num_trailing_partial_bytes_complete (pre e : cstring) :
  utf8_sequence e ->
  num_trailing_partial_bytes (pre ++ e) =
  Returns (if (length e =? 3)%nat then 3%nat else 0%nat).
Proof.
  intros [a Ha | l c1 Hl H1 | l c1 c2 Hl H1 H2 | l c1 c2 c3 Hl H1 H2 H3].
  - rewrite num_trailing_partial_bytes_single
      by (apply not_continuation_of_range; lia).
    rewrite is_utf8_leading_range.
    destruct (Z.leb_spec 192 (uchar a)); [lia | reflexivity].
  - rewrite num_trailing_partial_bytes_run;
      [ | apply not_continuation_of_range; lia | repeat constructor; assumption
        | discriminate ].
    rewrite num_succeeding_bytes_two by assumption. reflexivity.
  - rewrite num_trailing_partial_bytes_run;
      [ | apply not_continuation_of_range; lia | repeat constructor; assumption
        | discriminate ].
    rewrite num_succeeding_bytes_high by lia. reflexivity.
  - rewrite num_trailing_partial_bytes_run;
      [ | apply not_continuation_of_range; lia | repeat constructor; assumption
        | discriminate ].
    rewrite num_succeeding_bytes_high by lia. reflexivity.
Qed.

(** The text ends inside an encoded code point: exactly the bytes of that
    code point received so far are kept back. *)
Lemma num_trailing_partial_bytes_partial (pre q q' : cstring) :
  utf8_sequence (q ++ q') -> q <> [] -> q' <> [] ->
  num_trailing_partial_bytes (pre ++ q) = Returns (length q).
Proof.
  intros Hseq Hq Hq'. remember (q ++ q') as e eqn:E.
  destruct q' as [|y0 q']; [congruence|].
  destruct q as [|x0 [|x1 [|x2 [|x3 q]]]]; [congruence| | | |]; cbn [app] in E;
    destruct Hseq as [a Ha | l c1 Hl H1 | l c1 c2 Hl H1 H2 | l c1 c2 c3 Hl H1 H2 H3];
    inversion E; subst; clear E;
    try match goal with
        | H : [] = ?q ++ _ :: _ |- _ => destruct q; discriminate H
        end.
  all: first
    [ (* the lead byte alone *)
      rewrite num_trailing_partial_bytes_single
        by (apply not_continuation_of_range; lia);
      rewrite leading_of_range by lia; reflexivity
    | (* the lead byte and some continuation bytes *)
      rewrite num_trailing_partial_bytes_run;
      [ rewrite num_succeeding_bytes_high by lia; reflexivity
      | apply not_continuation_of_range; lia
      | repeat constructor; assumption
      | discriminate ] ].
Qed.

(** *** Prefixes of encoded text *)

Lemma app_eq_app_split {A} (x1 x2 y1 y2 : list A) :
  x1 ++ x2 = y1 ++ y2 ->
  exists l, (x1 = y1 ++ l /\ y2 = l ++ x2) \/ (y1 = x1 ++ l /\ x2 = l ++ y2).
Proof.
  revert y1. induction x1 as [|a x1 IH]; intros y1 H.
  - exists y1. right. cbn in *. auto.
  - destruct y1 as [|b y1].
    + exists (a :: x1). left. cbn in *. auto.
    + cbn in H. injection H as -> H. destruct (IH _ H) as [l [[-> ->] | [-> ->]]];
        exists l; [left | right]; cbn; auto.
Qed.

Lemma encoded_prefix (cps : list Z) :
  forall b r : cstring,
    b ++ r = Win32.utf8_encode cps ->
    exists cpsA cpsB q,
      cps = cpsA ++ cpsB /\
      b = Win32.utf8_encode cpsA ++ q /\
      q ++ r = Win32.utf8_encode cpsB /\
      (q = [] \/
       exists cp cpsB' q',
         cpsB = cp :: cpsB' /\ Win32.utf8_of_cp cp = q ++ q' /\
         q <> [] /\ q' <> []).
Proof.
  induction cps as [|cp cps IH]; intros b r H.
  - cbn in H. apply app_eq_nil in H. destruct H as [-> ->].
    exists [], [], []. cbn. auto.
  - change (Win32.utf8_encode (cp :: cps))
      with (Win32.utf8_of_cp cp ++ Win32.utf8_encode cps) in H.
    destruct (app_eq_app_split _ _ _ _ H) as [l [[-> Hl] | [Hcp ->]]].
    + symmetry in Hl. destruct (IH _ _ Hl) as (A & B & q & -> & -> & Hq & Hsh).
      exists (cp :: A), B, q. repeat split; auto.
      change (Win32.utf8_encode (cp :: A))
        with (Win32.utf8_of_cp cp ++ Win32.utf8_encode A).
      rewrite app_assoc. reflexivity.
    + destruct b as [|b0 b].
      { exists [], (cp :: cps), []. cbn [app] in *. subst l.
        repeat split; auto. }
      destruct l as [|l0 l].
      { exists [cp], cps, []. rewrite app_nil_r in Hcp. cbn [app].
        repeat split; auto.
        unfold Win32.utf8_encode. cbn [flat_map]. rewrite !app_nil_r. auto. }
      exists [], (cp :: cps), (b0 :: b).
      split; [reflexivity|]. split; [reflexivity|]. split.
      * change (Win32.utf8_encode (cp :: cps))
          with (Win32.utf8_of_cp cp ++ Win32.utf8_encode cps).
        rewrite Hcp, <- app_assoc. reflexivity.
      * right. exists cp, cps, (l0 :: l). repeat split; auto; discriminate.
Qed.

Lemma withheld_snoc (cps : list Z) (cp : Z) :
  withheld (cps ++ [cp]) = if (2048 <=? cp) && (cp <? 65536) then [cp] else [].
Proof. unfold withheld. rewrite rev_unit. reflexivity. Qed.

Lemma withheld_app (a b : list Z) : b <> [] -> withheld (a ++ b) = withheld b.
Proof.
  intros Hb. destruct (exists_last Hb) as (b' & cp & ->).
  rewrite app_assoc, !withheld_snoc. reflexivity.
Qed.

Lemma three_bytes_iff (cp : Z) :
  Win32.is_scalar cp = true ->
  (length (Win32.utf8_of_cp cp) =? 3)%nat = (2048 <=? cp) && (cp <? 65536).
Proof.
  intros Hs. apply is_scalar_range in Hs. rewrite utf8_of_cp_length.
  destruct (Z.ltb_spec cp 128), (Z.ltb_spec cp 2048), (Z.ltb_spec cp 65536);
    cbn [Nat.eqb]; lia.
Qed.

Lemma scalars_app (a b : list Z) : scalars (a ++ b) <-> scalars a /\ scalars b.
Proof. apply Forall_app. Qed.

Lemma utf8_encode_one (cp : Z) : Win32.utf8_encode [cp] = Win32.utf8_of_cp cp.
Proof. unfold Win32.utf8_encode. cbn [flat_map]. apply app_nil_r. Qed.

Lemma utf8_encode_cons (cp : Z) (cps : list Z) :
  Win32.utf8_encode (cp :: cps) = Win32.utf8_of_cp cp ++ Win32.utf8_encode cps.
Proof. reflexivity. Qed.

Lemma utf8_of_cp_length_max (cp : Z) : (length (Win32.utf8_of_cp cp) <= 4)%nat.
Proof.
  rewrite utf8_of_cp_length.
  destruct (cp <? 128), (cp <? 2048), (cp <? 65536); lia.
Qed.

Ltac splits := repeat match goal with |- _ /\ _ => split end.

(** On any prefix [b] of valid text, [num_trailing_partial_bytes] cuts
    between two code points: what precedes is whole, what is kept back is a
    [pending_tail]. *)
Lemma tail_of_valid_prefix (cps : list Z) (b r : cstring) :
  scalars cps ->
  b ++ r = Win32.utf8_encode cps ->
  exists cpsW cpsR pend,
    cps = cpsW ++ cpsR /\
    b = Win32.utf8_encode cpsW ++ pend /\
    pend ++ r = Win32.utf8_encode cpsR /\
    num_trailing_partial_bytes b = Returns (length pend) /\
    pending_tail pend /\
    (length pend < 4)%nat /\
    (r = [] -> pend = Win32.utf8_encode (withheld cps)).
Proof.
  intros Hsc H.
  destruct (encoded_prefix cps b r H)
    as (A & B & q & -> & -> & Hq & [-> | (cp & B' & q' & -> & Hcp & Hne & Hne')]).
  - (* [b] ends between two code points *)
    rewrite app_nil_r. cbn [app] in Hq.
    destruct A as [|a0 A0] eqn:EA.
    { exists [], B, []. cbn [app length]. splits; auto.
      - left; reflexivity.
      - intros ->. symmetry in Hq. apply utf8_encode_nil_inv in Hq.
        subst B. reflexivity. }
    assert (HA : A <> []) by (subst; discriminate). rewrite <- EA in *. clear EA.
    destruct (exists_last HA) as (A' & cp & ->).
    apply scalars_app in Hsc. destruct Hsc as [HscA HscB].
    apply scalars_app in HscA. destruct HscA as [HscA' Hcp].
    inversion Hcp as [|? ? Hs _]; subst.
    rewrite utf8_encode_app, utf8_encode_one.
    rewrite num_trailing_partial_bytes_complete by (apply utf8_of_cp_sequence; exact Hs).
    rewrite three_bytes_iff by exact Hs.
    destruct ((2048 <=? cp) && (cp <? 65536)) eqn:T.
    + exists A', (cp :: B), (Win32.utf8_of_cp cp).
      assert (HL : length (Win32.utf8_of_cp cp) = 3%nat).
      { rewrite utf8_of_cp_length.
        destruct (Z.ltb_spec cp 128), (Z.ltb_spec cp 2048), (Z.ltb_spec cp 65536);
          lia. }
      rewrite HL. splits; auto.
      * rewrite <- app_assoc. reflexivity.
      * right. exists cp, []. rewrite app_nil_r. splits; auto; [lia | right; lia].
      * intros HB. apply utf8_encode_nil_inv in HB. subst B.
        rewrite app_nil_r, withheld_snoc, T, utf8_encode_one. reflexivity.
    + exists (A' ++ [cp]), B, []. cbn [length]. rewrite app_nil_r.
      splits; auto.
      * rewrite utf8_encode_app, utf8_encode_one. reflexivity.
      * left; reflexivity.
      * intros HB. apply utf8_encode_nil_inv in HB. subst B.
        rewrite app_nil_r, withheld_snoc, T. reflexivity.
  - (* [b] ends inside the encoding of [cp] *)
    apply scalars_app in Hsc. destruct Hsc as [HscA HscB].
    inversion HscB as [|? ? Hs _]; subst.
    pose proof (utf8_of_cp_sequence cp Hs) as Hseq. rewrite Hcp in Hseq.
    pose proof (utf8_of_cp_length_max cp) as Hmax.
    rewrite Hcp, length_app in Hmax.
    assert (Hq'len : (0 < length q')%nat)
      by (destruct q'; [congruence | cbn; lia]).
    exists A, (cp :: B'), q. splits; auto.
    + apply num_trailing_partial_bytes_partial with (q' := q'); assumption.
    + right. exists cp, q'. splits; auto.
      destruct (Z.ltb_spec cp 128) as [Hlt|]; [|assumption].
      pose proof (utf8_of_cp_length cp) as HL.
      rewrite Hcp, length_app in HL.
      destruct (Z.ltb_spec cp 128); [|lia].
      destruct q; [congruence | cbn [length] in HL; lia].
    + lia.
    + intros ->. rewrite utf8_encode_cons, Hcp, app_nil_r in Hq.
      apply (f_equal (@length byte)) in Hq. rewrite !length_app in Hq. lia.
Qed.

(** ** [sync] *)

Lemma firstn_front {A} (a b : list A) :
  firstn (length (a ++ b) - length b) (a ++ b) = a.
Proof.
  rewrite length_app. replace (length a + length b - length b)%nat
    with (length a + 0)%nat by lia.
  rewrite firstn_app_2. cbn. apply app_nil_r.
Qed.

Lemma skipn_front {A} (a b : list A) :
  skipn (length (a ++ b) - length b) (a ++ b) = b.
Proof.
  rewrite length_app. replace (length a + length b - length b)%nat
    with (length a) by lia.
  rewrite skipn_app, skipn_all, Nat.sub_diag. reflexivity.
Qed.

(** The members after [sync], whatever becomes of the write. *)
Lemma sync_state (sb : U8ConsoleOstreamBufWin32) (con : Win32.console_out) (k : nat) :
  let buffer := m_unwritten_partial_bytes sb ++ str sb in
  num_trailing_partial_bytes buffer = Returns k ->
  snd (fst (sync sb con)) =
  {| m_unwritten_partial_bytes := skipn (length buffer - k) buffer; str := [] |}.
Proof.
  intros buffer Hk. unfold sync. fold buffer. rewrite Hk.
  destruct (firstn (length buffer - k) buffer); [reflexivity|].
  destruct (u8widen _ _); reflexivity.
Qed.

Lemma terminal_text_write (con : Win32.console_out) (text : wstring) :
  terminal_text (snd (Win32.WriteConsoleW con text)) = terminal_text con ++ text.
Proof.
  unfold terminal_text, Win32.WriteConsoleW. cbn.
  rewrite concat_app. cbn. rewrite app_nil_r. reflexivity.
Qed.

(** [sync] on a buffer that is a prefix of valid text. *)
Lemma sync_valid (sb : U8ConsoleOstreamBufWin32) (con : Win32.console_out)
      (cps : list Z) (r : cstring) :
  let buffer := m_unwritten_partial_bytes sb ++ str sb in
  scalars cps ->
  buffer ++ r = Win32.utf8_encode cps ->
  Z.of_nat (length buffer) < INT_MAX ->
  exists cpsW cpsR pend con',
    cps = cpsW ++ cpsR /\
    sync sb con =
      (Normal 0, {| m_unwritten_partial_bytes := pend; str := [] |}, con') /\
    pend ++ r = Win32.utf8_encode cpsR /\
    terminal_text con' = terminal_text con ++ Win32.utf16_encode cpsW /\
    (r = [] -> pend = Win32.utf8_encode (withheld cps)).
Proof.
  intros buffer Hsc H Hlen.
  destruct (tail_of_valid_prefix cps buffer r Hsc H)
    as (W & R & pend & -> & Hb & Hr & Hk & _ & _ & Hw).
  apply scalars_app in Hsc. destruct Hsc as [HscW HscR].
  unfold sync. fold buffer. rewrite Hk, Hb, firstn_front, skipn_front.
  destruct (Win32.utf8_encode W) as [|b0 bs] eqn:EW.
  - apply utf8_encode_nil_inv in EW. subst W.
    exists [], R, pend, con. cbn [app]. splits; auto.
    cbn. rewrite app_nil_r. reflexivity.
  - rewrite <- EW.
    assert (HW : W <> []) by (intros ->; discriminate).
    rewrite (u8widen_decoded _ true W).
    + destruct (Win32.WriteConsoleW con (Win32.utf16_encode W)) as [reply con'] eqn:Ew.
      exists W, R, pend, con'. splits; auto.
      change con' with (snd (reply, con')). rewrite <- Ew.
      apply terminal_text_write.
    + rewrite EW. discriminate.
    + rewrite EW. rewrite Hb, length_app in Hlen. lia.
    + apply utf8_decode_encode. exact HscW.
    + exact HW.
Qed.

(** The write log never shrinks. *)
Lemma sync_text_grows (sb : U8ConsoleOstreamBufWin32) (con : Win32.console_out) :
  exists more, terminal_text (snd (sync sb con)) = terminal_text con ++ more.
Proof.
  unfold sync.
  destruct (num_trailing_partial_bytes _) as [k|k];
    [|exists []; cbn; now rewrite app_nil_r].
  destruct (firstn _ _); [exists []; cbn; now rewrite app_nil_r|].
  destruct (u8widen _ _) as [w|]; [|exists []; cbn; now rewrite app_nil_r].
  exists w.
  destruct (Win32.WriteConsoleW con w) as [reply con'] eqn:Ew.
  change con' with (snd (reply, con')). rewrite <- Ew.
  apply terminal_text_write.
Qed.

Lemma flush_all_text_grows (chunks : list cstring) :
  forall sb con,
  exists more,
    terminal_text (snd (flush_all sb con chunks)) = terminal_text con ++ more.
Proof.
  induction chunks as [|c chunks IH]; intros sb con.
  - exists []. cbn. now rewrite app_nil_r.
  - cbn [flush_all].
    destruct (sync_text_grows (sputn sb c) con) as [m1 H1]. fold (flush sb con c) in H1.
    destruct (flush sb con c) as [[o sb1] con1]. cbn [snd] in H1.
    destruct (IH sb1 con1) as [m2 H2].
    destruct (flush_all sb1 con1 chunks) as [[os sb2] con2]. cbn [snd] in *.
    exists (m1 ++ m2). rewrite H2, H1, app_assoc. reflexivity.
Qed.

Lemma flush_all_cons_text (sb : U8ConsoleOstreamBufWin32) (con : Win32.console_out)
      (c : cstring) (rest : list cstring) :
  exists more,
    terminal_text (snd (flush_all sb con (c :: rest))) =
    terminal_text (snd (flush sb con c)) ++ more.
Proof.
  cbn [flush_all]. destruct (flush sb con c) as [[o sb1] con1].
  destruct (flush_all_text_grows rest sb1 con1) as [more H].
  destruct (flush_all sb1 con1 rest) as [[os sb2] con2].
  exists more. exact H.
Qed.

(** ** Chunked output *)

Lemma utf8_encode_inj (a b : list Z) :
  scalars a -> scalars b -> Win32.utf8_encode a = Win32.utf8_encode b -> a = b.
Proof.
  intros Ha Hb E.
  pose proof (utf8_decode_encode true a Ha) as Da.
  rewrite E, (utf8_decode_encode true b Hb) in Da. congruence.
Qed.

Lemma sputn_buffer (sb : U8ConsoleOstreamBufWin32) (chunk : cstring) :
  str sb = [] ->
  m_unwritten_partial_bytes (sputn sb chunk) ++ str (sputn sb chunk) =
  m_unwritten_partial_bytes sb ++ chunk.
Proof. intros H. cbn. rewrite H. reflexivity. Qed.

(** The pending tail along a valid text, for any chunking and whatever the
    outcome of the conversions. *)
Lemma flush_all_pending (chunks : list cstring) :
  forall sb con cps rest,
    str sb = [] ->
    scalars cps ->
    m_unwritten_partial_bytes sb ++ concat chunks ++ rest = Win32.utf8_encode cps ->
    pending_tail (m_unwritten_partial_bytes sb) ->
    (length (m_unwritten_partial_bytes sb) < 4)%nat ->
    let sb' := snd (fst (flush_all sb con chunks)) in
    str sb' = [] /\
    pending_tail (m_unwritten_partial_bytes sb') /\
    (length (m_unwritten_partial_bytes sb') < 4)%nat.
Proof.
  induction chunks as [|c chunks IH]; intros sb con cps rest Hstr Hsc H Hp Hl.
  - cbn. auto.
  - cbn [flush_all concat] in *.
    assert (H' : (m_unwritten_partial_bytes sb ++ c) ++ concat chunks ++ rest
                 = Win32.utf8_encode cps)
      by (rewrite <- H, <- !app_assoc; reflexivity).
    destruct (tail_of_valid_prefix cps _ _ Hsc H')
      as (W & R & pend & -> & Hb & Hr & Hk & Hpt & Hlen & _).
    apply scalars_app in Hsc. destruct Hsc as [_ HscR].
    pose proof (sync_state (sputn sb c) con (length pend)) as Hst.
    cbv zeta in Hst. rewrite sputn_buffer in Hst by assumption.
    specialize (Hst Hk). rewrite Hb, skipn_front in Hst.
    fold (flush sb con c) in Hst.
    destruct (flush sb con c) as [[o sb1] con1]. cbn [fst snd] in Hst. subst sb1.
    specialize (IH {| m_unwritten_partial_bytes := pend; str := [] |} con1 R rest
                   eq_refl HscR Hr Hpt Hlen).
    destruct (flush_all _ con1 chunks) as [[os sb2] con2].
    cbn [fst snd] in *. exact IH.
Qed.

(** Chunked output of valid text of admissible length: every [sync]
    returns 0, and the terminal has received the code points [cpsW]. *)
Lemma flush_all_valid (chunks : list cstring) :
  forall sb con cps rest,
    str sb = [] ->
    scalars cps ->
    m_unwritten_partial_bytes sb ++ concat chunks ++ rest = Win32.utf8_encode cps ->
    Z.of_nat (length (m_unwritten_partial_bytes sb ++ concat chunks)) < INT_MAX ->
    exists cpsW cpsR sb' con',
      cps = cpsW ++ cpsR /\
      flush_all sb con chunks = (repeat (Normal 0) (length chunks), sb', con') /\
      str sb' = [] /\
      m_unwritten_partial_bytes sb' ++ rest = Win32.utf8_encode cpsR /\
      terminal_text con' = terminal_text con ++ Win32.utf16_encode cpsW /\
      (rest = [] -> chunks <> [] -> Forall (fun c => c <> []) chunks ->
       m_unwritten_partial_bytes sb' = Win32.utf8_encode (withheld cps)).
Proof.
  induction chunks as [|c chunks IH]; intros sb con cps rest Hstr Hsc H Hlen.
  - exists [], cps, sb, con. cbn [app concat] in *. splits; auto.
    + cbn. rewrite app_nil_r. reflexivity.
    + congruence.
  - cbn [flush_all concat length repeat] in *.
    assert (H' : (m_unwritten_partial_bytes (sputn sb c) ++ str (sputn sb c))
                 ++ concat chunks ++ rest = Win32.utf8_encode cps)
      by (rewrite sputn_buffer, <- H, <- ?app_assoc by assumption; reflexivity).
    assert (Hlen' : Z.of_nat (length (m_unwritten_partial_bytes (sputn sb c)
                                      ++ str (sputn sb c))) < INT_MAX).
    { rewrite sputn_buffer by assumption.
      rewrite !length_app in *. lia. }
    destruct (sync_valid (sputn sb c) con cps (concat chunks ++ rest) Hsc H' Hlen')
      as (W1 & R1 & pend & con1 & -> & Hsync & Hr & Htext & Hlast).
    apply scalars_app in Hsc. destruct Hsc as [HscW HscR].
    unfold flush. rewrite Hsync.
    assert (Hlen1 : Z.of_nat (length (pend ++ concat chunks)) < INT_MAX).
    { rewrite sputn_buffer in H' by assumption.
      rewrite utf8_encode_app, <- Hr in H'.
      apply (f_equal (@length byte)) in H'.
      rewrite !length_app in *. lia. }
    destruct (IH {| m_unwritten_partial_bytes := pend; str := [] |} con1 R1 rest
                 eq_refl HscR Hr Hlen1)
      as (W2 & R2 & sb2 & con2 & -> & Hall & Hstr2 & Hr2 & Htext2 & Hlast2).
    rewrite Hall.
    exists (W1 ++ W2), R2, sb2, con2. splits; auto.
    + rewrite app_assoc. reflexivity.
    + rewrite Htext2, Htext, utf16_encode_app, app_assoc. reflexivity.
    + intros -> _ Hall_ne. inversion Hall_ne as [|? ? Hc Hchunks]; subst.
      destruct chunks as [|c' chunks'].
      * cbn in Hall. injection Hall as <- <-. cbn [m_unwritten_partial_bytes].
        apply Hlast. reflexivity.
      * rewrite Hlast2; [|reflexivity|discriminate|assumption].
        rewrite (withheld_app W1 (W2 ++ R2)); [reflexivity|].
        intros E. rewrite E in Hr. cbn in Hr.
        inversion Hchunks as [|? ? Hc' _]; subst.
        destruct pend; destruct c'; cbn in Hr; congruence.
Qed.

(** ** Lenient conversion never fails *)

Lemma utf8_decode_lenient_bounded (n : nat) :
  forall s : cstring,
    (length s <= n)%nat ->
    exists cps, Win32.utf8_decode false s = Some cps /\ (s <> [] -> cps <> []).
Proof.
  induction n as [|n IH]; intros s Hn.
  - destruct s; [|cbn in Hn; lia]. exists []. split; [reflexivity | congruence].
  - destruct s as [|b0 r0]; [exists []; split; [reflexivity | congruence]|].
    cbn [length] in Hn.
    assert (step : forall (x : Z) (r : cstring),
               (length r <= n)%nat ->
               exists cps, option_map (cons x) (Win32.utf8_decode false r) = Some cps
                           /\ (b0 :: r0 <> [] -> cps <> [])).
    { intros x r Hr. destruct (IH r Hr) as (cps & -> & _).
      exists (x :: cps). split; [reflexivity | discriminate]. }
    cbn [Win32.utf8_decode].
    repeat match goal with
           | |- context [if ?b then _ else _] => destruct b
           | |- context [match ?l with [] => _ | _ :: _ => _ end] =>
               is_var l; destruct l
           end;
      apply step; cbn [length] in *; lia.
Qed.

Lemma utf8_decode_lenient (s : cstring) :
  exists cps, Win32.utf8_decode false s = Some cps /\ (s <> [] -> cps <> []).
Proof. apply (utf8_decode_lenient_bounded (length s)). lia. Qed.

Lemma utf16_decode_lenient_bounded (n : nat) :
  forall w : wstring,
    (length w <= n)%nat ->
    exists cps, Win32.utf16_decode false w = Some cps /\ (w <> [] -> cps <> []).
Proof.
  induction n as [|n IH]; intros w Hn.
  - destruct w; [|cbn in Hn; lia]. exists []. split; [reflexivity | congruence].
  - destruct w as [|u r]; [exists []; split; [reflexivity | congruence]|].
    cbn [length] in Hn.
    assert (step : forall (x : Z) (r' : wstring),
               (length r' <= n)%nat ->
               exists cps, option_map (cons x) (Win32.utf16_decode false r') = Some cps
                           /\ (u :: r <> [] -> cps <> [])).
    { intros x r' Hr. destruct (IH r' Hr) as (cps & -> & _).
      exists (x :: cps). split; [reflexivity | discriminate]. }
    cbn [Win32.utf16_decode].
    repeat match goal with
           | |- context [if ?b then _ else _] => destruct b
           | |- context [match ?l with [] => _ | _ :: _ => _ end] =>
               is_var l; destruct l
           end;
      apply step; cbn [length] in *; lia.
Qed.

Lemma utf16_decode_lenient (w : wstring) :
  exists cps, Win32.utf16_decode false w = Some cps /\ (w <> [] -> cps <> []).
Proof. apply (utf16_decode_lenient_bounded (length w)). lia. Qed.

Lemma u8widen_lenient (s : cstring) :
  Z.of_nat (length s) < INT_MAX -> exists w, u8widen s false = Value w.
Proof.
  intros Hlen. destruct s as [|b0 s'] eqn:E; [exists []; reflexivity|].
  rewrite <- E in *. assert (Hne : s <> []) by (subst; discriminate).
  destruct (utf8_decode_lenient s) as (cps & Hdec & Hcps).
  exists (Win32.utf16_encode cps). apply u8widen_decoded; auto.
Qed.

(** The lenient narrowing returns a value whenever the byte count is sure to
    fit the [int] that receives it: a code unit gives at most four bytes, and
    at most three when it fits a [wchar_t]. *)
Lemma u8narrow_lenient_units (w : wstring) :
  4 * Z.of_nat (length w) <= INT_MAX -> exists s, u8narrow w false = Value s.
Proof.
  intros Hlen. destruct w as [|u w'] eqn:E; [exists []; reflexivity|].
  rewrite <- E in *. assert (Hne : w <> []) by (subst; discriminate).
  destruct (utf16_decode_lenient w) as (cps & Hdec & Hcps).
  pose proof (utf16_decode_bytes false w cps Hdec) as Hb.
  assert (Hpos : (0 < length w)%nat) by (subst w; cbn; lia).
  exists (Win32.utf8_encode cps). apply u8narrow_decoded; auto; lia.
Qed.

Lemma u8narrow_lenient (w : wstring) :
  wchars w ->
  3 * Z.of_nat (length w) < INT_MAX -> exists s, u8narrow w false = Value s.
Proof.
  intros Hw Hlen. destruct w as [|u w'] eqn:E; [exists []; reflexivity|].
  rewrite <- E in *. assert (Hne : w <> []) by (subst; discriminate).
  destruct (utf16_decode_lenient w) as (cps & Hdec & Hcps).
  pose proof (utf16_decode_bytes_wchars false w cps Hw Hdec) as Hb.
  assert (Hpos : (0 < length w)%nat) by (subst w; cbn; lia).
  exists (Win32.utf8_encode cps). apply u8narrow_decoded; auto; lia.
Qed.

(** Strict conversion of well-formed text of admissible length succeeds. *)
Lemma u8widen_valid (cps : list Z) (strict : bool) :
  scalars cps ->
  Z.of_nat (length (Win32.utf8_encode cps)) < INT_MAX ->
  u8widen (Win32.utf8_encode cps) strict = Value (Win32.utf16_encode cps).
Proof.
  intros Hsc Hlen. destruct cps as [|cp cps'] eqn:E; [reflexivity|].
  rewrite <- E in *. assert (Hne : cps <> []) by (subst; discriminate).
  apply u8widen_decoded; auto.
  - intros H. now apply utf8_encode_nil_inv in H.
  - apply utf8_decode_encode. assumption.
Qed.

(** For [u8narrow] the byte count, too, has to fit its [int]. *)
Lemma u8narrow_valid (cps : list Z) (strict : bool) :
  scalars cps ->
  Z.of_nat (length (Win32.utf16_encode cps)) < INT_MAX ->
  Z.of_nat (length (Win32.utf8_encode cps)) <= INT_MAX ->
  u8narrow (Win32.utf16_encode cps) strict = Value (Win32.utf8_encode cps).
Proof.
  intros Hsc Hlen Hfit. destruct cps as [|cp cps'] eqn:E; [reflexivity|].
  rewrite <- E in *. assert (Hne : cps <> []) by (subst; discriminate).
  apply u8narrow_decoded; auto.
  - intros H. now apply utf16_encode_nil_inv in H.
  - apply utf16_decode_encode. assumption.
Qed.

Lemma u8narrow_valid_units (cps : list Z) (strict : bool) :
  scalars cps ->
  3 * Z.of_nat (length (Win32.utf16_encode cps)) < INT_MAX ->
  u8narrow (Win32.utf16_encode cps) strict = Value (Win32.utf8_encode cps).
Proof.
  intros Hsc Hlen. pose proof (utf8_encode_length_units cps).
  apply u8narrow_valid; [assumption | lia | lia].
Qed.

(** ** Text of [INT_MAX] bytes *)

Lemma huge_text_length : Z.of_nat (length huge_text) = INT_MAX.
Proof.
  unfold huge_text.
  rewrite length_cons, Nat2Z.inj_succ, repeat_length, Z2Nat.id by discriminate.
  reflexivity.
Qed.

Lemma utf8_encode_repeat_ascii (n : nat) :
  Win32.utf8_encode (repeat 97 n) = repeat letter_a n.
Proof.
  induction n as [|n IH]; [reflexivity|].
  cbn [repeat]. rewrite utf8_encode_cons, IH. reflexivity.
Qed.

Lemma huge_text_valid : valid_utf8 huge_text.
Proof.
  exists (97 :: repeat 97 (Z.to_nat (INT_MAX - 1))). split.
  - constructor; [reflexivity|].
    apply Forall_forall. intros x Hx. apply repeat_spec in Hx. subst x. reflexivity.
  - unfold huge_text. rewrite utf8_encode_cons, utf8_encode_repeat_ascii.
    reflexivity.
Qed.

Lemma huge_text_tail : num_trailing_partial_bytes huge_text = Returns 0%nat.
Proof.
  unfold huge_text. rewrite repeat_cons.
  rewrite num_trailing_partial_bytes_single by reflexivity.
  reflexivity.
Qed.

(** A complete buffer of [INT_MAX] bytes or more: [u8widen] refuses it. *)
Lemma sync_too_long (sb : U8ConsoleOstreamBufWin32) (con : Win32.console_out) :
  let buffer := m_unwritten_partial_bytes sb ++ str sb in
  num_trailing_partial_bytes buffer = Returns 0%nat ->
  INT_MAX <= Z.of_nat (length buffer) ->
  sync sb con =
  (Exception "utf8 to wide-string conversion failed."%string,
   {| m_unwritten_partial_bytes := []; str := [] |}, con).
Proof.
  intros buffer Hk Hlen. unfold sync. fold buffer.
  rewrite Hk, Nat.sub_0_r, firstn_all, skipn_all.
  destruct buffer as [|b0 bs] eqn:E.
  - cbn [length] in Hlen. unfold INT_MAX in Hlen. lia.
  - rewrite u8widen_too_long by exact Hlen. reflexivity.
Qed.

(** ** The input buffer *)

Lemma wcs_terminated (w : wstring) : wcs (w ++ [0]) = wcs w.
Proof.
  induction w as [|u w IH]; [reflexivity|].
  cbn [app wcs]. rewrite IH. reflexivity.
Qed.

Lemma wcs_nonzero (w : wstring) : Forall (fun u => u <> 0) w -> wcs w = w.
Proof.
  induction 1 as [|u w Hu _ IH]; [reflexivity|].
  cbn [wcs]. destruct (Z.eqb_spec u 0); [contradiction|]. rewrite IH. reflexivity.
Qed.

Lemma wcs_shorter (w : wstring) : (length (wcs w) <= length w)%nat.
Proof.
  induction w as [|u w IH]; [reflexivity|].
  cbn [wcs]. destruct (u =? 0); cbn [length]; lia.
Qed.

Lemma utf16_of_cp_nonzero (cp : Z) :
  Win32.is_scalar cp = true -> cp <> 0 ->
  Forall (fun u => u <> 0) (Win32.utf16_of_cp cp).
Proof.
  intros Hs Hz. apply is_scalar_range in Hs. unfold Win32.utf16_of_cp.
  destruct (Z.ltb_spec cp 65536); repeat constructor;
    try assumption; Z.div_mod_to_equations; lia.
Qed.

Lemma utf16_encode_nonzero (cps : list Z) :
  scalars cps -> Forall (fun cp => cp <> 0) cps ->
  Forall (fun u => u <> 0) (Win32.utf16_encode cps).
Proof.
  induction 1 as [|cp cps Hcp _ IH]; intros Hz; [constructor|].
  inversion Hz; subst. unfold Win32.utf16_encode. cbn [flat_map].
  apply Forall_app. split; [apply utf16_of_cp_nonzero | apply IH]; assumption.
Qed.

(** A high surrogate left alone at the end of the text is ill-formed. *)
Lemma utf16_decode_dangling (cps : list Z) (h : Z) :
  scalars cps ->
  Win32.IS_HIGH_SURROGATE h = true ->
  Win32.utf16_decode true (Win32.utf16_encode cps ++ [h]) = None.
Proof.
  intros Hsc Hh. induction Hsc as [|cp cps Hcp _ IH].
  - cbn. rewrite Hh. reflexivity.
  - unfold Win32.utf16_encode in *. cbn [flat_map].
    rewrite <- app_assoc, utf16_decode_of_cp, IH by assumption. reflexivity.
Qed.





Lemma read_first (con : Win32.console_in) (r : Win32.read_reply)
      (script : list Win32.read_reply) (n : nat) :
  Win32.read_script con = r :: script ->
  Win32.ReadConsoleW con n =
  (Win32.read_ok r, firstn n (Win32.read_units r),
   {| Win32.read_script := script;
      Win32.read_log := Win32.read_log con ++ [n] |}).
Proof. intros H. unfold Win32.ReadConsoleW. rewrite H. reflexivity. Qed.

(** The extra read is issued exactly when the batch ends with a high
    surrogate; it is one read of one unit. *)
Lemma complete_surrogate_log (units : wstring) (con : Win32.console_in) :
  Win32.read_log (snd (complete_surrogate units con)) =
  Win32.read_log con ++
  (if (0 <? length units)%nat
      && Win32.IS_HIGH_SURROGATE (nth (length units - 1) units 0)
   then [1%nat] else []).
Proof.
  unfold complete_surrogate.
  destruct ((0 <? length units)%nat
            && Win32.IS_HIGH_SURROGATE (nth (length units - 1) units 0)).
  - unfold Win32.ReadConsoleW.
    destruct (Win32.read_script con) as [|r script]; cbn.
    + reflexivity.
    + match goal with
      | |- context [if ?b then _ else _] => destruct b
      end; reflexivity.
  - cbn. rewrite app_nil_r. reflexivity.
Qed.

(** [underflow] on an exhausted get area whose batch read succeeds. *)
Lemma underflow_fill (sb : U8ConsoleIstreamBufWin32) (con : Win32.console_in)
      (r : Win32.read_reply) (script : list Win32.read_reply) :
  (egptr sb <= gptr sb)%nat ->
  Win32.read_script con = r :: script ->
  Win32.read_ok r = true ->
  underflow sb con =
  (let '(wideBuffer, con2) :=
     complete_surrogate (firstn 126 (Win32.read_units r))
       {| Win32.read_script := script;
          Win32.read_log := Win32.read_log con ++ [126%nat] |} in
   match u8narrow (wcs wideBuffer) true with
   | Throws what => (Exception what, sb, con2)
   | Value bytes =>
       match bytes with
       | [] => (Normal eof, {| m_buffer := []; gptr := 0; egptr := 0 |}, con2)
       | _ => (Normal (to_int_type (uchar (at_index bytes 0))),
               {| m_buffer := bytes; gptr := 0; egptr := length bytes |}, con2)
       end
   end).
Proof.
  intros Hex Hscript Hok. unfold underflow.
  apply Nat.leb_le in Hex. rewrite Hex.
  rewrite (read_first con r script _ Hscript), Hok. cbn [negb].
  change (ARRAYSIZE_wideBuffer - 2)%nat with 126%nat.
  destruct (complete_surrogate _ _) as [wideBuffer con2].
  unfold u8narrow_cstr, u8_default_throw. rewrite wcs_terminated.
  destruct (u8narrow (wcs wideBuffer) true) as [bytes|what]; [|reflexivity].
  destruct bytes; reflexivity.
Qed.


(* ================================================================== *)
(** * The claims *)

(** ** The classifier and the trailing-partial detection *)

(** C1 (the code departs from the claim).  [num_succeeding_bytes] answers 0
    for 0x00..0x7F, 1 for 0xC0..0xDF and 3 for 0xF0..0xF7 as claimed, but a
    lead byte [1110xxxx] (0xE0..0xEF) is answered 3 instead of 2: in the
    branch [c >> 5 == 7] the test [c & (1 << 5)] looks at a bit that is
    always set there, so [return 2] is never reached. *)
Theorem num_succeeding_bytes_three_byte_lead :
  num_succeeding_bytes xe0 = Returns 3 /\
  forall c : byte,
    num_succeeding_bytes c <> Returns 2 /\
    num_succeeding_bytes c =
    (if uchar c <? 128 then Returns 0
     else if uchar c <? 192 then AssertFails 0
     else if uchar c <? 224 then Returns 1
     else Returns 3).
Proof.
  split; [reflexivity|]. intros c. split.
  - destruct c; discriminate.
  - apply num_succeeding_bytes_ranges.
Qed.

(** C2 (the code departs from the claim).  A string that ends exactly on a
    complete three-byte sequence, here U+20AC as [E2 82 AC], is answered 3 by
    [num_trailing_partial_bytes], not 0: the classifier demands three
    continuation bytes of the lead byte [E2] (see C1). *)
Theorem num_trailing_partial_bytes_three_byte_complete :
  forall pre : cstring,
    num_trailing_partial_bytes (pre ++ [xe2; x82; xac]) = Returns 3%nat.
Proof.
  intros pre.
  rewrite (num_trailing_partial_bytes_complete pre [xe2; x82; xac]);
    [reflexivity|].
  apply seq_three; [cbv; split; congruence | reflexivity | reflexivity].
Qed.

(** The remaining cases of C2 hold: 0 after an ASCII byte and after a whole
    two- or four-byte sequence, at least 1 after a lead byte and after a
    truncated run. *)
Lemma num_trailing_partial_bytes_other_ends (pre : cstring) :
  (forall a, uchar a < 128 ->
             num_trailing_partial_bytes (pre ++ [a]) = Returns 0%nat) /\
  (forall l c1, 192 <= uchar l < 224 -> is_utf8_continuation c1 = true ->
                num_trailing_partial_bytes (pre ++ [l; c1]) = Returns 0%nat) /\
  (forall l c1 c2 c3,
      240 <= uchar l < 248 -> is_utf8_continuation c1 = true ->
      is_utf8_continuation c2 = true -> is_utf8_continuation c3 = true ->
      num_trailing_partial_bytes (pre ++ [l; c1; c2; c3]) = Returns 0%nat) /\
  (forall l, is_utf8_leading l = true ->
             num_trailing_partial_bytes (pre ++ [l]) = Returns 1%nat) /\
  (forall q q', utf8_sequence (q ++ q') -> q <> [] -> q' <> [] ->
                num_trailing_partial_bytes (pre ++ q) = Returns (length q)).
Proof.
  splits.
  - intros a Ha.
    now rewrite (num_trailing_partial_bytes_complete pre [a]) by (constructor; lia).
  - intros l c1 Hl H1.
    now rewrite (num_trailing_partial_bytes_complete pre [l; c1])
      by (constructor; auto).
  - intros l c1 c2 c3 Hl H1 H2 H3.
    now rewrite (num_trailing_partial_bytes_complete pre [l; c1; c2; c3])
      by (constructor; auto).
  - intros l Hl. rewrite num_trailing_partial_bytes_single, Hl; [reflexivity|].
    rewrite is_utf8_leading_range in Hl. apply not_continuation_of_range. lia.
  - intros q q'. apply num_trailing_partial_bytes_partial.
Qed.

(** C10.  For every string, the byte that [num_trailing_partial_bytes] hands
    to [num_succeeding_bytes] is not a continuation byte, and no assertion
    fails: the continuation branch of the classifier is not reached from
    this call. *)
Theorem classifier_argument_never_continuation (s : cstring) :
  match classifier_argument s with
  | Some x =>
      is_utf8_continuation x = false /\
      num_trailing_partial_bytes s =
      (n <~ num_succeeding_bytes x ;;
       if n =? Z.of_nat (trailing_continuation s)
       then Returns 0%nat else Returns (S (trailing_continuation s)))
  | None => True
  end /\
  asserts (num_trailing_partial_bytes s) = false.
Proof.
  pose proof (num_trailing_partial_bytes_call s) as Hcall.
  destruct (trailing_run_split s) as (pre & cs & -> & Hcs & [-> | (pre' & x & -> & Hx)]).
  - cbn [app] in *. rewrite classifier_argument_all in * by assumption.
    split; [exact I | exact Hcall].
  - rewrite <- app_assoc in *. cbn [app] in *.
    rewrite classifier_argument_run in * by assumption.
    destruct cs as [|c cs']; [split; [exact I | exact Hcall]|].
    split; [split; [exact Hx | exact Hcall]|].
    rewrite Hcall.
    pose proof (num_succeeding_bytes_no_assert x Hx) as Hn.
    destruct (num_succeeding_bytes x) as [n|n]; [|discriminate].
    cbn [abind]. destruct (n =? _); reflexivity.
Qed.

(** ** The output buffer *)

(** C3, amended.  For every valid UTF-8 string [s] shorter than [INT_MAX]
    bytes and every splitting of [s] into consecutive non-empty chunks,
    writing and flushing the chunks in order sends the terminal the same text
    as writing and flushing [s] at once; every [sync] returns 0 and the
    buffer is left in the same state.  Splits may fall inside a multi-byte
    sequence. *)
Theorem sync_chunk_invariance
        (s : cstring) (chunks : list cstring) (con : Win32.console_out) :
  valid_utf8 s ->
  chunking s chunks ->
  Z.of_nat (length s) < INT_MAX ->
  let '(outcomes, sb_n, con_n) := flush_all ostreambuf_init con chunks in
  let '(outcome, sb_1, con_1) := flush ostreambuf_init con s in
  terminal_text con_n = terminal_text con_1 /\
  sb_n = sb_1 /\
  outcomes = repeat (Normal 0) (length chunks) /\
  outcome = Normal 0.
Proof.
  intros (cps & Hsc & ->) [Hcat Hne] Hlen.
  (* all at once *)
  assert (H1 : (m_unwritten_partial_bytes (sputn ostreambuf_init (Win32.utf8_encode cps))
                ++ str (sputn ostreambuf_init (Win32.utf8_encode cps))) ++ []
               = Win32.utf8_encode cps)
    by (cbn; apply app_nil_r).
  assert (Hlen1 : Z.of_nat (length
                    (m_unwritten_partial_bytes (sputn ostreambuf_init (Win32.utf8_encode cps))
                     ++ str (sputn ostreambuf_init (Win32.utf8_encode cps)))) < INT_MAX)
    by exact Hlen.
  destruct (sync_valid _ con cps [] Hsc H1 Hlen1)
    as (W1 & R1 & pend1 & con1 & E1 & Hsync & Hr1 & Htext1 & Hlast1).
  unfold flush. rewrite Hsync. specialize (Hlast1 eq_refl).
  (* in chunks *)
  assert (Hn : m_unwritten_partial_bytes ostreambuf_init ++ concat chunks ++ []
               = Win32.utf8_encode cps)
    by (cbn; rewrite app_nil_r; exact Hcat).
  assert (Hlenn : Z.of_nat (length (m_unwritten_partial_bytes ostreambuf_init
                                    ++ concat chunks)) < INT_MAX)
    by (cbn [ostreambuf_init m_unwritten_partial_bytes app]; rewrite Hcat; exact Hlen).
  destruct (flush_all_valid chunks ostreambuf_init con cps [] eq_refl Hsc Hn Hlenn)
    as (Wn & Rn & sbn & conn & En & Hall & Hstrn & Hrn & Htextn & Hlastn).
  rewrite Hall. rewrite app_nil_r in Hr1, Hrn.
  assert (Hpend : m_unwritten_partial_bytes sbn = pend1).
  { destruct chunks as [|c chunks'].
    - cbn in Hall. injection Hall as <- <-. cbn in Hcat.
      symmetry in Hcat. apply utf8_encode_nil_inv in Hcat. subst cps.
      rewrite Hlast1. reflexivity.
    - rewrite Hlast1. apply Hlastn; [reflexivity | discriminate | assumption]. }
  assert (HR : Rn = R1).
  { pose proof Hsc as Ha. rewrite E1 in Ha. apply scalars_app in Ha.
    pose proof Hsc as Hb. rewrite En in Hb. apply scalars_app in Hb.
    apply utf8_encode_inj; [tauto | tauto | congruence]. }
  assert (HW : Wn = W1).
  { subst Rn. rewrite E1 in En. now apply app_inv_tail in En. }
  subst Wn. splits; auto.
  - congruence.
  - destruct sbn as [p st]. cbn in *. congruence.
Qed.

(** C3 at work: U+00E9 U+20AC, split inside both sequences. *)
Lemma sync_chunk_invariance_witness :
  valid_utf8 [xc3; xa9; xe2; x82; xac] /\
  chunking [xc3; xa9; xe2; x82; xac] [[xc3]; [xa9; xe2]; [x82; xac]] /\
  Z.of_nat (length [xc3; xa9; xe2; x82; xac]) < INT_MAX /\
  let '(outcomes, sb_n, con_n) :=
    flush_all ostreambuf_init console_out_init [[xc3]; [xa9; xe2]; [x82; xac]] in
  let '(outcome, sb_1, con_1) :=
    flush ostreambuf_init console_out_init [xc3; xa9; xe2; x82; xac] in
  terminal_text con_n = terminal_text con_1 /\
  sb_n = sb_1 /\
  outcomes = repeat (Normal 0) (length [[xc3]; [xa9; xe2]; [x82; xac]]) /\
  outcome = Normal 0.
Proof.
  assert (Hv : valid_utf8 [xc3; xa9; xe2; x82; xac]).
  { exists [233; 8364]. split; [repeat constructor | reflexivity]. }
  assert (Hc : chunking [xc3; xa9; xe2; x82; xac] [[xc3]; [xa9; xe2]; [x82; xac]]).
  { split; [reflexivity | repeat constructor; discriminate]. }
  assert (Hl : Z.of_nat (length [xc3; xa9; xe2; x82; xac]) < INT_MAX)
    by reflexivity.
  split; [exact Hv|]. split; [exact Hc|]. split; [exact Hl|].
  exact (sync_chunk_invariance _ _ console_out_init Hv Hc Hl).
Defined.

Lemma flush_letter_a :
  terminal_text (snd (flush ostreambuf_init console_out_init [letter_a])) = [97].
Proof. reflexivity. Qed.

(** C3 as stated fails for a valid text of [INT_MAX] bytes: flushed at once,
    [u8widen] refuses it for its length and nothing reaches the terminal;
    flushed as one byte followed by the rest, the terminal receives text. *)
Lemma sync_chunk_invariance_fails_at_int_max :
  valid_utf8 huge_text /\
  chunking huge_text [[letter_a]; repeat letter_a (Z.to_nat (INT_MAX - 1))] /\
  terminal_text
    (snd (flush_all ostreambuf_init console_out_init
            [[letter_a]; repeat letter_a (Z.to_nat (INT_MAX - 1))]))
  <> terminal_text (snd (flush ostreambuf_init console_out_init huge_text)).
Proof.
  split; [exact huge_text_valid|]. split.
  - split.
    + unfold huge_text. cbn [concat app]. rewrite app_nil_r. reflexivity.
    + constructor; [discriminate|]. constructor; [|constructor].
      intros E. apply (f_equal (fun l => Z.of_nat (length l))) in E.
      rewrite repeat_length, Z2Nat.id in E by discriminate. discriminate E.
  - destruct (flush_all_cons_text ostreambuf_init console_out_init [letter_a]
                [repeat letter_a (Z.to_nat (INT_MAX - 1))]) as [more Hmore].
    rewrite Hmore, flush_letter_a. unfold flush.
    rewrite (sync_too_long (sputn ostreambuf_init huge_text) console_out_init).
    + discriminate.
    + exact huge_text_tail.
    + change (m_unwritten_partial_bytes (sputn ostreambuf_init huge_text)
              ++ str (sputn ostreambuf_init huge_text)) with huge_text.
      rewrite huge_text_length. apply Z.le_refl.
Qed.

(** C4, amended.  Along every valid UTF-8 text, however it is cut into
    chunks, the pending tail left by each [sync] is shorter than 4 bytes and
    is empty or made of the first bytes of one encoded multi-byte code point;
    these are not all its bytes when the code point takes two or four bytes.
    (For inputs that are not valid text the tail is not bounded, and for
    three-byte code points see C2.) *)
Theorem pending_tail_invariant
        (chunks : list cstring) (rest : cstring) (con : Win32.console_out) :
  valid_utf8 (concat chunks ++ rest) ->
  let sb := snd (fst (flush_all ostreambuf_init con chunks)) in
  (length (m_unwritten_partial_bytes sb) < 4)%nat /\
  pending_tail (m_unwritten_partial_bytes sb).
Proof.
  intros (cps & Hsc & H).
  destruct (flush_all_pending chunks ostreambuf_init con cps rest eq_refl Hsc)
    as (_ & Hp & Hl).
  - exact H.
  - left; reflexivity.
  - cbn; lia.
  - split; assumption.
Qed.

(** C4 at work: the stream U+00E9 U+1F600, flushed up to the middle of the
    four-byte sequence. *)
Lemma pending_tail_invariant_witness :
  valid_utf8 (concat [[xc3]; [xa9; xf0; x9f]] ++ [x98; x80]) /\
  let sb := snd (fst (flush_all ostreambuf_init console_out_init
                        [[xc3]; [xa9; xf0; x9f]])) in
  (length (m_unwritten_partial_bytes sb) < 4)%nat /\
  pending_tail (m_unwritten_partial_bytes sb).
Proof.
  assert (Hv : valid_utf8 (concat [[xc3]; [xa9; xf0; x9f]] ++ [x98; x80])).
  { exists [233; 128512]. split; [repeat constructor | reflexivity]. }
  split; [exact Hv|].
  exact (pending_tail_invariant [[xc3]; [xa9; xf0; x9f]] [x98; x80]
           console_out_init Hv).
Defined.

(** C4 as stated fails on input that is not valid text: after four
    continuation bytes the pending tail holds all four. *)
Lemma pending_tail_unbounded :
  let sb := snd (fst (flush ostreambuf_init console_out_init
                        [x80; x80; x80; x80])) in
  m_unwritten_partial_bytes sb = [x80; x80; x80; x80] /\
  ~ (length (m_unwritten_partial_bytes sb) < 4)%nat.
Proof.
  cbv zeta. split; [reflexivity|].
  change (m_unwritten_partial_bytes
            (snd (fst (flush ostreambuf_init console_out_init [x80; x80; x80; x80]))))
    with [x80; x80; x80; x80].
  cbn [length]. lia.
Qed.

(** ** The codec *)

(** C6, amended.  [u8widen] on an input shorter than [INT_MAX] bytes, and
    [u8narrow] on fewer 16-bit code units than a third of [INT_MAX] (the
    byte count then fits the [int] that receives it), raise
    [U8ConversionError] only in strict mode and only when the input is not
    well-formed; with [throw_on_inv_chars = false] they return a value.  On
    an input of [INT_MAX] units or more both raise it, in either mode. *)
Theorem conversion_error_only_strict
        (s : cstring) (w : wstring) (strict : bool) :
  Z.of_nat (length s) < INT_MAX ->
  wchars w ->
  3 * Z.of_nat (length w) < INT_MAX ->
  (forall what, u8widen s strict = Throws what ->
                strict = true /\ ~ valid_utf8 s) /\
  (forall what, u8narrow w strict = Throws what ->
                strict = true /\ ~ valid_utf16 w) /\
  (exists wide, u8widen s false = Value wide) /\
  (exists bytes, u8narrow w false = Value bytes) /\
  (forall (long : cstring) (mode : bool),
      INT_MAX <= Z.of_nat (length long) ->
      u8widen long mode =
        Throws "utf8 to wide-string conversion failed."%string) /\
  (forall (long : wstring) (mode : bool),
      INT_MAX <= Z.of_nat (length long) ->
      u8narrow long mode =
        Throws "wide-string to utf8 conversion failed."%string).
Proof.
  intros Hs Hw Hlen. splits.
  - intros what Ht. split.
    + destruct strict; [reflexivity|].
      destruct (u8widen_lenient s Hs) as [x Hx]. congruence.
    + intros (cps & Hsc & ->). rewrite u8widen_valid in Ht by assumption.
      discriminate.
  - intros what Ht. split.
    + destruct strict; [reflexivity|].
      destruct (u8narrow_lenient w Hw Hlen) as [x Hx]. congruence.
    + intros (cps & Hsc & ->).
      rewrite u8narrow_valid_units in Ht by assumption. discriminate.
  - apply u8widen_lenient. exact Hs.
  - apply u8narrow_lenient; assumption.
  - intros long mode Hlong. apply u8widen_too_long. exact Hlong.
  - intros long mode Hlong. apply u8narrow_too_long. exact Hlong.
Qed.

(** C6 at work: a truncated three-byte sequence and an unpaired surrogate. *)
Lemma conversion_error_only_strict_witness :
  Z.of_nat (length [xe2; x82; x61]) < INT_MAX /\
  wchars [55357; 97] /\
  3 * Z.of_nat (length [55357; 97]%Z) < INT_MAX /\
  (forall what, u8widen [xe2; x82; x61] true = Throws what ->
                true = true /\ ~ valid_utf8 [xe2; x82; x61]) /\
  (forall what, u8narrow [55357; 97] true = Throws what ->
                true = true /\ ~ valid_utf16 [55357; 97]) /\
  (exists wide, u8widen [xe2; x82; x61] false = Value wide) /\
  (exists bytes, u8narrow [55357; 97] false = Value bytes) /\
  (forall (long : cstring) (mode : bool),
      INT_MAX <= Z.of_nat (length long) ->
      u8widen long mode =
        Throws "utf8 to wide-string conversion failed."%string) /\
  (forall (long : wstring) (mode : bool),
      INT_MAX <= Z.of_nat (length long) ->
      u8narrow long mode =
        Throws "wide-string to utf8 conversion failed."%string).
Proof.
  assert (H1 : Z.of_nat (length [xe2; x82; x61]) < INT_MAX) by reflexivity.
  assert (H2 : wchars [55357; 97]) by (repeat constructor; lia).
  assert (H3 : 3 * Z.of_nat (length [55357; 97]%Z) < INT_MAX) by reflexivity.
  split; [exact H1|]. split; [exact H2|]. split; [exact H3|].
  exact (conversion_error_only_strict [xe2; x82; x61] [55357; 97] true H1 H2 H3).
Defined.

(** C6 as stated fails for an input of [INT_MAX] bytes: [u8widen] raises the
    error with [throw_on_inv_chars = false], on well-formed text. *)
Lemma lenient_widen_throws_at_int_max :
  valid_utf8 huge_text /\
  u8widen huge_text false = Throws "utf8 to wide-string conversion failed."%string.
Proof.
  split; [exact huge_text_valid|].
  apply u8widen_too_long. rewrite huge_text_length. apply Z.le_refl.
Qed.

(** C7, amended.  For every valid UTF-8 string [s] shorter than [INT_MAX]
    bytes, [u8widen] in strict mode returns a wide string which [u8narrow]
    in strict mode turns back into [s]. *)
Theorem narrow_widen_roundtrip (s : cstring) :
  valid_utf8 s ->
  Z.of_nat (length s) < INT_MAX ->
  exists w, u8widen s true = Value w /\ u8narrow w true = Value s.
Proof.
  intros (cps & Hsc & ->) Hlen.
  exists (Win32.utf16_encode cps). split.
  - apply u8widen_valid; assumption.
  - pose proof (utf16_encode_shorter cps).
    apply u8narrow_valid; [assumption | lia | lia].
Qed.

(** C7 at work: "a", U+00E9, U+20AC, U+1F600. *)
Lemma narrow_widen_roundtrip_witness :
  valid_utf8 [x61; xc3; xa9; xe2; x82; xac; xf0; x9f; x98; x80] /\
  Z.of_nat (length [x61; xc3; xa9; xe2; x82; xac; xf0; x9f; x98; x80]) < INT_MAX /\
  exists w,
    u8widen [x61; xc3; xa9; xe2; x82; xac; xf0; x9f; x98; x80] true = Value w /\
    u8narrow w true = Value [x61; xc3; xa9; xe2; x82; xac; xf0; x9f; x98; x80].
Proof.
  assert (Hv : valid_utf8 [x61; xc3; xa9; xe2; x82; xac; xf0; x9f; x98; x80]).
  { exists [97; 233; 8364; 128512]. split; [repeat constructor | reflexivity]. }
  assert (Hl : Z.of_nat (length [x61; xc3; xa9; xe2; x82; xac; xf0; x9f; x98; x80])
               < INT_MAX) by reflexivity.
  split; [exact Hv|]. split; [exact Hl|].
  exact (narrow_widen_roundtrip _ Hv Hl).
Defined.

(** C7 as stated fails for a valid text of [INT_MAX] bytes: [u8widen]
    raises the error, so there is nothing to narrow. *)
Lemma roundtrip_fails_at_int_max :
  valid_utf8 huge_text /\
  ~ exists w, u8widen huge_text true = Value w /\ u8narrow w true = Value huge_text.
Proof.
  split; [exact huge_text_valid|].
  intros (w & Hw & _).
  rewrite u8widen_too_long in Hw by (rewrite huge_text_length; apply Z.le_refl).
  discriminate.
Qed.

(** ** The input buffer *)

Lemma complete_surrogate_length (units : wstring) (con : Win32.console_in) :
  (length (fst (complete_surrogate units con)) <= length units + 1)%nat.
Proof.
  unfold complete_surrogate.
  destruct ((0 <? length units)%nat
            && Win32.IS_HIGH_SURROGATE (nth (length units - 1) units 0));
    [|cbn [fst]; lia].
  destruct (Win32.ReadConsoleW con 1) as [[ok extra] con'].
  destruct ok; cbn [andb fst]; [|lia].
  destruct (Nat.eqb_spec (length extra) 1); cbn [fst]; [|lia].
  rewrite length_app. lia.
Qed.

Lemma underflow_console (sb : U8ConsoleIstreamBufWin32) (con : Win32.console_in)
      (r : Win32.read_reply) (script : list Win32.read_reply) :
  (egptr sb <= gptr sb)%nat ->
  Win32.read_script con = r :: script ->
  Win32.read_ok r = true ->
  snd (underflow sb con) =
  snd (complete_surrogate (firstn 126 (Win32.read_units r))
         {| Win32.read_script := script;
            Win32.read_log := Win32.read_log con ++ [126%nat] |}).
Proof.
  intros Hex Hscript Hok. rewrite (underflow_fill sb con r script) by assumption.
  destruct (complete_surrogate _ _) as [wideBuffer con2].
  destruct (u8narrow _ _) as [[|b bytes]|what]; reflexivity.
Qed.

(** C5, amended.  [underflow] converts the batch with [u8narrow] in its
    default mode, which is the strict one ([u8_default_throw] is [true]): a
    batch that is ill-formed up to its terminator, such as one ending with a
    high surrogate that the extra read could not complete, makes [underflow]
    raise [U8ConversionError] and leaves the buffer as it was.  Nothing is
    replaced, although the lenient conversion of the same batch would have
    returned a value. *)
Theorem underflow_converts_strictly
        (sb : U8ConsoleIstreamBufWin32) (con : Win32.console_in)
        (r : Win32.read_reply) (script : list Win32.read_reply) :
  (egptr sb <= gptr sb)%nat ->
  Win32.read_script con = r :: script ->
  Win32.read_ok r = true ->
  let batch :=
    complete_surrogate (firstn 126 (Win32.read_units r))
      {| Win32.read_script := script;
         Win32.read_log := Win32.read_log con ++ [126%nat] |} in
  Win32.utf16_decode true (wcs (fst batch)) = None ->
  underflow sb con =
    (Exception "wide-string to utf8 conversion failed."%string, sb, snd batch) /\
  exists bytes, u8narrow_cstr (fst batch ++ [0]) false = Value bytes.
Proof.
  intros Hex Hscript Hok batch Hill. split.
  - rewrite (underflow_fill sb con r script) by assumption. fold batch.
    destruct batch as [wideBuffer con2]. cbn [fst snd] in *.
    rewrite u8narrow_undecoded; [reflexivity | | exact Hill].
    intros E. rewrite E in Hill. discriminate.
  - unfold u8narrow_cstr. rewrite wcs_terminated. apply u8narrow_lenient_units.
    pose proof (wcs_shorter (fst batch)) as H1.
    pose proof (complete_surrogate_length (firstn 126 (Win32.read_units r))
                  {| Win32.read_script := script;
                     Win32.read_log := Win32.read_log con ++ [126%nat] |}) as H2.
    fold batch in H2. rewrite length_firstn in H2. unfold INT_MAX. lia.
Qed.

(** C5 at work: the terminal delivers "a" and a high surrogate, and nothing
    more. *)
Lemma underflow_converts_strictly_witness :
  let con := {| Win32.read_script :=
                  [{| Win32.read_ok := true; Win32.read_units := [97; 55357] |}];
                Win32.read_log := [] |} in
  let r := {| Win32.read_ok := true; Win32.read_units := [97; 55357] |} in
  (egptr istreambuf_init <= gptr istreambuf_init)%nat /\
  Win32.read_script con = [r] /\
  Win32.read_ok r = true /\
  let batch :=
    complete_surrogate (firstn 126 (Win32.read_units r))
      {| Win32.read_script := [];
         Win32.read_log := Win32.read_log con ++ [126%nat] |} in
  Win32.utf16_decode true (wcs (fst batch)) = None /\
  underflow istreambuf_init con =
    (Exception "wide-string to utf8 conversion failed."%string,
     istreambuf_init, snd batch) /\
  exists bytes, u8narrow_cstr (fst batch ++ [0]) false = Value bytes.
Proof.
  cbv zeta.
  assert (H1 : (egptr istreambuf_init <= gptr istreambuf_init)%nat)
    by (cbn; lia).
  split; [exact H1|]. split; [reflexivity|]. split; [reflexivity|].
  split; [reflexivity|].
  exact (underflow_converts_strictly istreambuf_init
           {| Win32.read_script :=
                [{| Win32.read_ok := true; Win32.read_units := [97; 55357] |}];
              Win32.read_log := [] |}
           {| Win32.read_ok := true; Win32.read_units := [97; 55357] |} []
           H1 eq_refl eq_refl eq_refl).
Defined.

(** C5 as stated fails: with a lone high surrogate in the batch, [underflow]
    raises the error, where a lenient conversion would have delivered the
    replacement character [EF BF BD]. *)
Lemma underflow_not_lenient :
  underflow istreambuf_init
    {| Win32.read_script :=
         [{| Win32.read_ok := true; Win32.read_units := [55357] |}];
       Win32.read_log := [] |}
  = (Exception "wide-string to utf8 conversion failed."%string,
     istreambuf_init,
     {| Win32.read_script := []; Win32.read_log := [126%nat; 1%nat] |}) /\
  u8narrow_cstr [55357; 0] false = Value [xef; xbf; xbd].
Proof. split; reflexivity. Qed.

(** C8.  When the batch just read ends with a high surrogate, [underflow]
    issues exactly one more read, of a single unit, before converting.  When
    that read delivers the low surrogate and the completed batch is
    well-formed text without NUL, the buffer exposed to the caller is the
    UTF-8 encoding of that text: the pair becomes one four-byte sequence and
    no replacement character is introduced. *)
Theorem underflow_completes_surrogate_pair
        (sb : U8ConsoleIstreamBufWin32) (con : Win32.console_in)
        (units : wstring) (script : list Win32.read_reply) :
  (egptr sb <= gptr sb)%nat ->
  Win32.read_script con =
    {| Win32.read_ok := true; Win32.read_units := units |} :: script ->
  (0 < length units <= 126)%nat ->
  Win32.IS_HIGH_SURROGATE (nth (length units - 1) units 0) = true ->
  Win32.read_log (snd (underflow sb con)) =
    Win32.read_log con ++ [126%nat; 1%nat] /\
  forall (text : list Z) (low : Z) (script' : list Win32.read_reply),
    script = {| Win32.read_ok := true; Win32.read_units := [low] |} :: script' ->
    scalars text ->
    Forall (fun cp => cp <> 0) text ->
    units ++ [low] = Win32.utf16_encode text ->
    underflow sb con =
      (Normal (to_int_type (uchar (at_index (Win32.utf8_encode text) 0))),
       {| m_buffer := Win32.utf8_encode text;
          gptr := 0;
          egptr := length (Win32.utf8_encode text) |},
       {| Win32.read_script := script';
          Win32.read_log := Win32.read_log con ++ [126%nat; 1%nat] |}).
Proof.
  intros Hex Hscript [Hpos Hmax] Hhigh.
  assert (Hfirst : firstn 126 units = units) by (apply firstn_all2; lia).
  assert (Hcond : (0 <? length units)%nat
                  && Win32.IS_HIGH_SURROGATE (nth (length units - 1) units 0) = true).
  { rewrite Hhigh, andb_true_r. apply Nat.ltb_lt. exact Hpos. }
  split.
  - rewrite (underflow_console sb con _ script Hex Hscript eq_refl).
    cbn [Win32.read_units]. rewrite Hfirst, complete_surrogate_log, Hcond.
    cbn [Win32.read_log]. rewrite <- app_assoc. reflexivity.
  - intros text low script' -> Hsc Hnz Htext.
    rewrite (underflow_fill sb con _ _ Hex Hscript eq_refl).
    cbn [Win32.read_units]. rewrite Hfirst.
    unfold complete_surrogate. rewrite Hcond.
    rewrite (read_first
               {| Win32.read_script :=
                    {| Win32.read_ok := true; Win32.read_units := [low] |} :: script';
                  Win32.read_log := Win32.read_log con ++ [126%nat] |}
               {| Win32.read_ok := true; Win32.read_units := [low] |}
               script' 1%nat eq_refl).
    cbn [Win32.read_ok Win32.read_units firstn length Nat.eqb andb Win32.read_log].
    rewrite Htext, wcs_nonzero by (apply utf16_encode_nonzero; assumption).
    rewrite u8narrow_valid_units.
    + destruct (Win32.utf8_encode text) as [|b bs] eqn:E.
      * apply utf8_encode_nil_inv in E. subst text. destruct units; discriminate.
      * rewrite <- app_assoc. reflexivity.
    + exact Hsc.
    + rewrite <- Htext, length_app. cbn [length]. unfold INT_MAX. lia.
Qed.

(** C8 at work: "a" and the high half of U+1F600 arrive first, the low half
    on the extra read. *)
Lemma underflow_completes_surrogate_pair_witness :
  let con := {| Win32.read_script :=
                  [{| Win32.read_ok := true; Win32.read_units := [97; 55357] |};
                   {| Win32.read_ok := true; Win32.read_units := [56832] |}];
                Win32.read_log := [] |} in
  (egptr istreambuf_init <= gptr istreambuf_init)%nat /\
  (0 < length [97; 55357]%Z <= 126)%nat /\
  Win32.IS_HIGH_SURROGATE (nth (length [97; 55357] - 1) [97; 55357] 0) = true /\
  Win32.read_log (snd (underflow istreambuf_init con)) = [126%nat; 1%nat] /\
  underflow istreambuf_init con =
    (Normal (to_int_type 97),
     {| m_buffer := [x61; xf0; x9f; x98; x80]; gptr := 0; egptr := 5 |},
     {| Win32.read_script := []; Win32.read_log := [126%nat; 1%nat] |}).
Proof.
  cbv zeta.
  assert (H1 : (egptr istreambuf_init <= gptr istreambuf_init)%nat)
    by (cbn; lia).
  assert (H2 : (0 < length [97; 55357]%Z <= 126)%nat) by (cbn; lia).
  split; [exact H1|]. split; [exact H2|]. split; [reflexivity|].
  destruct (underflow_completes_surrogate_pair istreambuf_init
              {| Win32.read_script :=
                   [{| Win32.read_ok := true; Win32.read_units := [97; 55357] |};
                    {| Win32.read_ok := true; Win32.read_units := [56832] |}];
                 Win32.read_log := [] |}
              [97; 55357]
              [{| Win32.read_ok := true; Win32.read_units := [56832] |}]
              H1 eq_refl H2 eq_refl) as [Hlog Hpair].
  split; [exact Hlog|].
  apply (Hpair [97; 128512] 56832 [] eq_refl).
  - repeat constructor.
  - repeat constructor; discriminate.
  - reflexivity.
Defined.




(* ================================================================== *)
(** * Further properties *)

(** ** The classifier and the byte predicates *)

(** The two predicates of the output buffer and the classifier agree: a byte
    is a continuation byte exactly when the classifier asserts, a leading
    byte exactly when the classifier demands at least one byte more, and
    never both. *)
Theorem byte_classes_agree (c : byte) :
  is_utf8_continuation c = asserts (num_succeeding_bytes c) /\
  is_utf8_leading c = (1 <=? ndebug_value (num_succeeding_bytes c)) /\
  is_utf8_continuation c && is_utf8_leading c = false /\
  (negb (is_utf8_continuation c) && negb (is_utf8_leading c)) = (uchar c <? 128).
Proof. destruct c; repeat split; reflexivity. Qed.

(** ** [num_trailing_partial_bytes] on arbitrary strings *)

Lemma num_succeeding_bytes_returns (x : byte) :
  is_utf8_continuation x = false ->
  num_succeeding_bytes x = Returns (ndebug_value (num_succeeding_bytes x)).
Proof. destruct x; cbv; congruence. Qed.

(** The three shapes of a string and the answer on each. *)
Lemma num_trailing_partial_bytes_cases (s : cstring) :
  (is_continuation_run s /\
   num_trailing_partial_bytes s = Returns (length s)) \/
  (exists pre x,
      s = pre ++ [x] /\ is_utf8_continuation x = false /\
      num_trailing_partial_bytes s =
      Returns (if is_utf8_leading x then 1%nat else 0%nat)) \/
  (exists pre x cs,
      s = pre ++ x :: cs /\ is_utf8_continuation x = false /\
      is_continuation_run cs /\ cs <> [] /\
      num_trailing_partial_bytes s =
      Returns (if ndebug_value (num_succeeding_bytes x) =? Z.of_nat (length cs)
               then 0%nat else S (length cs))).
Proof.
  destruct (trailing_run_split s) as (pre & cs & -> & Hcs & [-> | (pre' & x & -> & Hx)]).
  - left. split; [exact Hcs | apply num_trailing_partial_bytes_all; exact Hcs].
  - right. rewrite <- app_assoc. cbn [app]. destruct cs as [|c cs'] eqn:E.
    + left. exists pre', x. splits; auto.
      rewrite num_trailing_partial_bytes_single by assumption.
      destruct (is_utf8_leading x); reflexivity.
    + right. rewrite <- E in *. assert (Hne : cs <> []) by (subst; discriminate).
      exists pre', x, cs. splits; auto.
      rewrite num_trailing_partial_bytes_run by assumption.
      rewrite (num_succeeding_bytes_returns x Hx). cbn [abind].
      destruct (_ =? _); reflexivity.
Qed.

Lemma num_trailing_partial_bytes_total (s : cstring) :
  exists k, num_trailing_partial_bytes s = Returns k /\ (k <= length s)%nat.
Proof.
  destruct (num_trailing_partial_bytes_cases s)
    as [[_ H] | [(pre & x & -> & _ & H) | (pre & x & cs & -> & _ & _ & _ & H)]];
    rewrite H; eexists; (split; [reflexivity|]); rewrite ?length_app; cbn [length].
  - lia.
  - destruct (is_utf8_leading x); lia.
  - destruct (_ =? _); lia.
Qed.

(** The answer never exceeds the length of the string, so
    [buffer.end() - partial_trailing] and
    [buffer.size() - partial_trailing] in [sync] stay inside the buffer; and
    it is computed without a failed assertion. *)
Theorem num_trailing_partial_bytes_bounded (s : cstring) :
  asserts (num_trailing_partial_bytes s) = false /\
  (ndebug_value (num_trailing_partial_bytes s) <= length s)%nat.
Proof.
  destruct (num_trailing_partial_bytes_total s) as (k & -> & Hk).
  split; [reflexivity | exact Hk].
Qed.

(** What comes before the last byte that is no continuation byte does not
    matter: the answer on [pre ++ x :: rest] is the answer on [x :: rest]
    whenever [x] is no continuation byte. *)
Theorem num_trailing_partial_bytes_suffix (pre : cstring) (x : byte) (rest : cstring) :
  is_utf8_continuation x = false ->
  num_trailing_partial_bytes (pre ++ x :: rest) =
  num_trailing_partial_bytes (x :: rest).
Proof.
  intros Hx.
  destruct (trailing_run_split (x :: rest))
    as (p & cs & E & Hcs & [-> | (p' & y & -> & Hy)]).
  - cbn [app] in E. subst cs. inversion Hcs; congruence.
  - rewrite <- app_assoc in E. cbn [app] in E. rewrite E, app_assoc.
    destruct cs as [|c cs'] eqn:Ecs.
    + rewrite !num_trailing_partial_bytes_single by assumption. reflexivity.
    + rewrite <- Ecs in *.
      rewrite !num_trailing_partial_bytes_run
        by (try assumption; subst; discriminate).
      reflexivity.
Qed.

Lemma num_trailing_partial_bytes_suffix_witness :
  is_utf8_continuation xe2 = false /\
  num_trailing_partial_bytes ([x61; xc3; xa9] ++ xe2 :: [x82]) =
  num_trailing_partial_bytes (xe2 :: [x82]).
Proof.
  split; [reflexivity|].
  exact (num_trailing_partial_bytes_suffix [x61; xc3; xa9] xe2 [x82] eq_refl).
Defined.

(** ** [sync] on arbitrary input *)

(** [sync] neither drops nor reorders bytes: the bytes it converts, followed
    by the bytes it keeps back, are the old pending tail followed by the
    put area; the put area is emptied.  It returns 0 after at most one write
    request, or lets the error of [u8widen] through after no request (the
    members are updated before the conversion in both cases). *)
Theorem sync_conserves_bytes
        (sb : U8ConsoleOstreamBufWin32) (con : Win32.console_out) :
  let '(o, sb', con') := sync sb con in
  exists converted,
    converted ++ m_unwritten_partial_bytes sb' =
      m_unwritten_partial_bytes sb ++ str sb /\
    str sb' = [] /\
    match o with
    | Normal r =>
        r = 0 /\
        ((converted = [] /\ con' = con) \/
         (exists wide,
             converted <> [] /\
             u8widen converted true = Value wide /\
             Win32.write_log con' = Win32.write_log con ++ [wide]))
    | Exception what =>
        u8widen converted true = Throws what /\ con' = con
    | Abort => False
    end.
Proof.
  unfold sync. set (buffer := m_unwritten_partial_bytes sb ++ str sb).
  destruct (num_trailing_partial_bytes_total buffer) as (k & -> & Hk).
  destruct (firstn (length buffer - k) buffer) as [|b bs] eqn:E.
  - exists []. cbn [app m_unwritten_partial_bytes str]. splits; auto.
    pose proof (firstn_skipn (length buffer - k) buffer) as F.
    rewrite E in F. exact F.
  - unfold u8_default_throw. destruct (u8widen (b :: bs) true) as [wide|what] eqn:W.
    + cbn. exists (b :: bs). splits; auto.
      * rewrite <- E. apply firstn_skipn.
      * right. exists wide. splits; auto. discriminate.
    + exists (b :: bs). splits; auto.
      rewrite <- E. apply (firstn_skipn (length buffer - k) buffer).
Qed.

(** After [sync], only the first byte kept back can be something else than a
    continuation byte. *)
Theorem sync_pending_shape
        (sb : U8ConsoleOstreamBufWin32) (con : Win32.console_out) :
  is_continuation_run (tl (m_unwritten_partial_bytes (snd (fst (sync sb con))))).
Proof.
  set (buffer := m_unwritten_partial_bytes sb ++ str sb).
  destruct (num_trailing_partial_bytes_cases buffer)
    as [[Hrun H] | [(pre & x & E & Hx & H) | (pre & x & cs & E & Hx & Hcs & Hne & H)]];
    rewrite (sync_state sb con _ H); cbn [m_unwritten_partial_bytes]; fold buffer.
  - rewrite Nat.sub_diag. cbn [skipn].
    destruct buffer; [constructor | inversion Hrun; assumption].
  - rewrite E. destruct (is_utf8_leading x).
    + change 1%nat with (length [x]). rewrite skipn_front. constructor.
    + rewrite Nat.sub_0_r, skipn_all. constructor.
  - rewrite E. destruct (_ =? _).
    + rewrite Nat.sub_0_r, skipn_all. constructor.
    + change (S (length cs)) with (length (x :: cs)). rewrite skipn_front.
      exact Hcs.
Qed.

(** A buffer that ends with an ASCII byte is converted as a whole: nothing
    is kept back, whatever precedes the last byte. *)
Theorem sync_ascii_end_flushes_all
        (sb : U8ConsoleOstreamBufWin32) (con : Win32.console_out)
        (pre : cstring) (a : byte) :
  m_unwritten_partial_bytes sb ++ str sb = pre ++ [a] ->
  uchar a < 128 ->
  m_unwritten_partial_bytes (snd (fst (sync sb con))) = [] /\
  (forall wide, u8widen (pre ++ [a]) true = Value wide ->
                sync sb con =
                (Normal 0, {| m_unwritten_partial_bytes := []; str := [] |},
                 snd (Win32.WriteConsoleW con wide))).
Proof.
  intros E Ha.
  assert (H : num_trailing_partial_bytes (m_unwritten_partial_bytes sb ++ str sb)
              = Returns 0%nat).
  { rewrite E, num_trailing_partial_bytes_single
      by (apply not_continuation_of_range; lia).
    rewrite is_utf8_leading_range.
    destruct (Z.leb_spec 192 (uchar a)); [lia | reflexivity]. }
  split.
  - rewrite (sync_state sb con _ H). cbn [m_unwritten_partial_bytes].
    rewrite Nat.sub_0_r. apply skipn_all.
  - intros wide Hw. unfold sync. rewrite H, Nat.sub_0_r, firstn_all, skipn_all, E.
    destruct (pre ++ [a]) as [|b bs] eqn:E'; [destruct pre; discriminate|].
    unfold u8_default_throw. rewrite Hw.
    destruct (Win32.WriteConsoleW con wide). reflexivity.
Qed.

Lemma sync_ascii_end_flushes_all_witness :
  let sb := {| m_unwritten_partial_bytes := [xe2; x82; xac]; str := [x0a] |} in
  m_unwritten_partial_bytes sb ++ str sb = [xe2; x82; xac] ++ [x0a] /\
  uchar x0a < 128 /\
  m_unwritten_partial_bytes (snd (fst (sync sb console_out_init))) = [] /\
  (forall wide, u8widen ([xe2; x82; xac] ++ [x0a]) true = Value wide ->
                sync sb console_out_init =
                (Normal 0, {| m_unwritten_partial_bytes := []; str := [] |},
                 snd (Win32.WriteConsoleW console_out_init wide))).
Proof.
  cbv zeta. split; [reflexivity|]. split; [reflexivity|].
  exact (sync_ascii_end_flushes_all
           {| m_unwritten_partial_bytes := [xe2; x82; xac]; str := [x0a] |}
           console_out_init [xe2; x82; xac] x0a eq_refl eq_refl).
Defined.

(** A second [sync] without new output does nothing: it returns 0, writes
    nothing and leaves the members as the first one left them, whatever the
    bytes were and even when the first one threw. *)
Theorem sync_idempotent
        (sb : U8ConsoleOstreamBufWin32) (con con1 : Win32.console_out) :
  let sb1 := snd (fst (sync sb con)) in
  sync sb1 con1 = (Normal 0, sb1, con1).
Proof.
  set (buffer := m_unwritten_partial_bytes sb ++ str sb).
  assert (Hkeep : forall p : cstring,
             num_trailing_partial_bytes p = Returns (length p) ->
             sync {| m_unwritten_partial_bytes := p; str := [] |} con1
             = (Normal 0, {| m_unwritten_partial_bytes := p; str := [] |}, con1)).
  { intros p Hp. unfold sync. cbn [m_unwritten_partial_bytes str].
    rewrite app_nil_r, Hp, Nat.sub_diag. reflexivity. }
  cbv zeta.
  destruct (num_trailing_partial_bytes_cases buffer)
    as [[Hrun H] | [(pre & x & E & Hx & H) | (pre & x & cs & E & Hx & Hcs & Hne & H)]];
    rewrite (sync_state sb con _ H); fold buffer; apply Hkeep.
  - rewrite Nat.sub_diag. cbn [skipn]. exact H.
  - rewrite E. destruct (is_utf8_leading x) eqn:L.
    + change 1%nat with (length [x]). rewrite skipn_front.
      pose proof (num_trailing_partial_bytes_single [] x Hx) as S1.
      cbn [app] in S1. rewrite S1, L. reflexivity.
    + rewrite Nat.sub_0_r, skipn_all. reflexivity.
  - rewrite E. rewrite E in H.
    pose proof (num_trailing_partial_bytes_run pre x cs Hx Hcs Hne) as A.
    pose proof (num_trailing_partial_bytes_run [] x cs Hx Hcs Hne) as B.
    cbn [app] in B. rewrite A, <- B in H. clear A B.
    destruct (_ =? _) eqn:T.
    + rewrite Nat.sub_0_r, skipn_all. reflexivity.
    + change (S (length cs)) with (length (x :: cs)). rewrite skipn_front.
      exact H.
Qed.

(** ** [sync] on valid text *)

Lemma withheld_last (cps : list Z) :
  withheld cps = [] \/ exists pre cp, cps = pre ++ [cp] /\ withheld cps = [cp].
Proof.
  destruct cps as [|c cps'] eqn:E; [left; reflexivity|].
  assert (Hne : cps <> []) by (subst; discriminate). rewrite <- E. clear E.
  destruct (exists_last Hne) as (pre & cp & ->).
  rewrite withheld_snoc. destruct (_ && _); [right | left; reflexivity].
  exists pre, cp. split; reflexivity.
Qed.

Lemma withheld_scalars (cps : list Z) : scalars cps -> scalars (withheld cps).
Proof.
  intros Hsc. destruct (withheld_last cps) as [-> | (pre & cp & -> & ->)];
    [constructor|].
  apply scalars_app in Hsc. tauto.
Qed.

Lemma released_split (cps W R : list Z) :
  scalars cps ->
  cps = W ++ R ->
  Win32.utf8_encode R = Win32.utf8_encode (withheld cps) ->
  R = withheld cps /\ W = released cps.
Proof.
  intros Hsc E HR.
  assert (H : R = withheld cps).
  { pose proof Hsc as Hsc'. rewrite E in Hsc'. apply scalars_app in Hsc'.
    apply utf8_encode_inj; [tauto | apply withheld_scalars; exact Hsc | exact HR]. }
  split; [exact H|].
  unfold released. rewrite <- H, E, firstn_front. reflexivity.
Qed.

(** The exact effect of one [sync] on valid text shorter than [INT_MAX]
    bytes, from an empty pending tail: it returns 0, the terminal receives
    the UTF-16 form of every code point but the [withheld] one (the last
    code point, when it takes three bytes in UTF-8), and the pending tail is
    the UTF-8 form of the withheld one. *)
Theorem sync_valid_text_output (cps : list Z) (con : Win32.console_out) :
  scalars cps ->
  Z.of_nat (length (Win32.utf8_encode cps)) < INT_MAX ->
  exists con',
    flush ostreambuf_init con (Win32.utf8_encode cps) =
      (Normal 0,
       {| m_unwritten_partial_bytes := Win32.utf8_encode (withheld cps);
          str := [] |},
       con') /\
    terminal_text con' = terminal_text con ++ Win32.utf16_encode (released cps).
Proof.
  intros Hsc Hlen.
  assert (H1 : (m_unwritten_partial_bytes (sputn ostreambuf_init (Win32.utf8_encode cps))
                ++ str (sputn ostreambuf_init (Win32.utf8_encode cps))) ++ []
               = Win32.utf8_encode cps)
    by (cbn; apply app_nil_r).
  destruct (sync_valid _ con cps [] Hsc H1 Hlen)
    as (W & R & pend & con' & E & Hsync & Hr & Htext & Hlast).
  specialize (Hlast eq_refl). rewrite app_nil_r in Hr.
  destruct (released_split cps W R Hsc E) as [_ HW]; [congruence|].
  exists con'. unfold flush. rewrite Hsync, Hlast, Htext, HW.
  split; reflexivity.
Qed.

Lemma sync_valid_text_output_witness :
  scalars [97; 8364] /\
  Z.of_nat (length (Win32.utf8_encode [97; 8364])) < INT_MAX /\
  exists con',
    flush ostreambuf_init console_out_init (Win32.utf8_encode [97; 8364]) =
      (Normal 0,
       {| m_unwritten_partial_bytes := Win32.utf8_encode (withheld [97; 8364]);
          str := [] |},
       con') /\
    terminal_text con' =
      terminal_text console_out_init ++ Win32.utf16_encode (released [97; 8364]).
Proof.
  assert (H1 : scalars [97; 8364]) by (repeat constructor).
  assert (H2 : Z.of_nat (length (Win32.utf8_encode [97; 8364])) < INT_MAX)
    by reflexivity.
  split; [exact H1|]. split; [exact H2|].
  exact (sync_valid_text_output [97; 8364] console_out_init H1 H2).
Defined.

(** ** The codec wrappers *)

Lemma resized_and_filled_length {A} (zero : A) (n : Z) (out : list A) :
  n <= Z.of_nat (length (resized_and_filled zero n out)).
Proof.
  unfold resized_and_filled.
  rewrite length_app, length_skipn, repeat_length. lia.
Qed.

(** A returned conversion is empty only for the empty input: on a non-empty
    input both wrappers return a non-empty string or throw, in either mode. *)
Theorem conversion_empty_iff
        (s : cstring) (w : wstring) (strict strict' : bool)
        (wide : wstring) (bytes : cstring) :
  u8widen s strict = Value wide ->
  u8narrow w strict' = Value bytes ->
  (wide = [] <-> s = []) /\ (bytes = [] <-> w = []).
Proof.
  intros Hw Hn. split.
  - unfold u8widen in Hw.
    destruct (Z.eqb_spec (Z.of_nat (length s)) 0) as [E|E].
    + injection Hw as <-. destruct s; [tauto | cbn in E; lia].
    + destruct (Z.of_nat (length s) <? INT_MAX); [|discriminate].
      cbv zeta in Hw.
      destruct (Z.ltb_spec 0 (fst (Win32.MultiByteToWideChar
                  (if strict then Win32.MB_ERR_INVALID_CHARS else 0) s 0)))
        as [Hpos|]; [|discriminate].
      injection Hw as <-. split.
      * intros Hnil. apply (f_equal (@length Z)) in Hnil.
        match type of Hnil with
        | length (resized_and_filled ?z ?n ?o) = _ =>
            pose proof (resized_and_filled_length z n o) as HL
        end.
        rewrite Hnil in HL. cbn [length] in HL. lia.
      * intros ->. cbn in E. lia.
  - unfold u8narrow in Hn.
    destruct (Z.eqb_spec (Z.of_nat (length w)) 0) as [E|E].
    + injection Hn as <-. destruct w; [tauto | cbn in E; lia].
    + destruct (Z.of_nat (length w) <? INT_MAX); [|discriminate].
      cbv zeta in Hn.
      destruct (Z.ltb_spec 0 (fst (Win32.WideCharToMultiByte
                  (if strict' then Win32.WC_ERR_INVALID_CHARS else 0) w 0)))
        as [Hpos|]; [|discriminate].
      injection Hn as <-. split.
      * intros Hnil. apply (f_equal (@length byte)) in Hnil.
        match type of Hnil with
        | length (resized_and_filled ?z ?n ?o) = _ =>
            pose proof (resized_and_filled_length z n o) as HL
        end.
        rewrite Hnil in HL. cbn [length] in HL. lia.
      * intros ->. cbn in E. lia.
Qed.

Lemma conversion_empty_iff_witness :
  u8widen [xc3; xa9] true = Value [233] /\
  u8narrow [] false = Value [] /\
  ([233] = [] <-> [xc3; xa9] = []) /\ (@nil byte = [] <-> @nil Z = []).
Proof.
  split; [reflexivity|]. split; [reflexivity|].
  exact (conversion_empty_iff [xc3; xa9] [] true false [233] [] eq_refl eq_refl).
Defined.

(** The round trip in the other direction: a well-formed wide string whose
    length is below a third of [INT_MAX] is narrowed and widened back to
    itself, both in strict mode. *)
Theorem widen_narrow_roundtrip (w : wstring) :
  valid_utf16 w ->
  3 * Z.of_nat (length w) < INT_MAX ->
  exists s, u8narrow w true = Value s /\ u8widen s true = Value w.
Proof.
  intros (cps & Hsc & ->) Hlen.
  exists (Win32.utf8_encode cps). split.
  - apply u8narrow_valid_units; assumption.
  - apply u8widen_valid; [assumption|].
    pose proof (utf8_encode_length_units cps). lia.
Qed.

Lemma widen_narrow_roundtrip_witness :
  valid_utf16 [97; 233; 8364; 55357; 56832] /\
  3 * Z.of_nat (length [97; 233; 8364; 55357; 56832]) < INT_MAX /\
  exists s, u8narrow [97; 233; 8364; 55357; 56832] true = Value s /\
            u8widen s true = Value [97; 233; 8364; 55357; 56832].
Proof.
  assert (Hv : valid_utf16 [97; 233; 8364; 55357; 56832]).
  { exists [97; 233; 8364; 128512]. split; [repeat constructor | reflexivity]. }
  assert (Hl : 3 * Z.of_nat (length [97; 233; 8364; 55357; 56832]) < INT_MAX)
    by reflexivity.
  split; [exact Hv|]. split; [exact Hl|].
  exact (widen_narrow_roundtrip _ Hv Hl).
Defined.

(** *** Strict decoding accepts well-formed text only *)

Lemma utf16_decode_strict_sound (n : nat) :
  forall (w : wstring) (cps : list Z),
    (length w <= n)%nat ->
    wchars w ->
    Win32.utf16_decode true w = Some cps ->
    scalars cps /\ w = Win32.utf16_encode cps.
Proof.
  induction n as [|n IH]; intros w cps Hn Hw H.
  - destruct w; [|cbn in Hn; lia]. cbn in H. injection H as <-.
    split; [constructor | reflexivity].
  - destruct w as [|u r].
    { cbn in H. injection H as <-. split; [constructor | reflexivity]. }
    inversion Hw as [|? ? Hu Hr]; subst. cbn [length] in Hn.
    cbn [Win32.utf16_decode] in H.
    destruct (Win32.IS_HIGH_SURROGATE u) eqn:Hh.
    + destruct r as [|l r']; [discriminate|].
      inversion Hr as [|? ? Hl Hr']; subst. cbn [length] in Hn.
      destruct (Win32.IS_LOW_SURROGATE l) eqn:Hlow; [|discriminate].
      apply option_map_cons_inv in H. destruct H as (cps' & D & ->).
      destruct (IH r' cps' ltac:(lia) Hr' D) as [Hsc ->].
      unfold Win32.IS_HIGH_SURROGATE, Win32.IS_LOW_SURROGATE in *.
      split.
      * constructor; [|exact Hsc]. apply is_scalar_range. lia.
      * unfold Win32.utf16_encode. cbn [flat_map]. unfold Win32.utf16_of_cp.
        destruct (Z.ltb_spec (65536 + (u - 55296) * 1024 + (l - 56320)) 65536);
          [lia|].
        cbn [app]. f_equal; [|f_equal]; Z.div_mod_to_equations; lia.
    + destruct (Win32.IS_LOW_SURROGATE u) eqn:Hlow; [discriminate|].
      apply option_map_cons_inv in H. destruct H as (cps' & D & ->).
      destruct (IH r cps' ltac:(lia) Hr D) as [Hsc ->].
      unfold Win32.IS_HIGH_SURROGATE, Win32.IS_LOW_SURROGATE in *.
      split.
      * constructor; [|exact Hsc]. apply is_scalar_range. lia.
      * unfold Win32.utf16_encode. cbn [flat_map]. unfold Win32.utf16_of_cp.
        destruct (Z.ltb_spec u 65536); [reflexivity | lia].
Qed.

Lemma utf8_decode_strict_sound (n : nat) :
  forall (s : cstring) (cps : list Z),
    (length s <= n)%nat ->
    Win32.utf8_decode true s = Some cps ->
    scalars cps /\ s = Win32.utf8_encode cps.
Proof.
  induction n as [|n IH]; intros s cps Hn H.
  - destruct s; [|cbn in Hn; lia]. cbn in H. injection H as <-.
    split; [constructor | reflexivity].
  - destruct s as [|b0 r0].
    { cbn in H. injection H as <-. split; [constructor | reflexivity]. }
    cbn [length] in Hn. cbn [Win32.utf8_decode] in H.
    pose proof (uchar_range b0) as R0.
    destruct (Z.ltb_spec (uchar b0) 128) as [A|A].
    { apply option_map_cons_inv in H. destruct H as (cps' & D & ->).
      destruct (IH r0 cps' ltac:(lia) D) as [Hsc ->]. split.
      - constructor; [|exact Hsc]. apply is_scalar_range. lia.
      - rewrite utf8_encode_cons. unfold Win32.utf8_of_cp.
        destruct (Z.ltb_spec (uchar b0) 128); [|lia].
        rewrite byte_of_Z_uchar. reflexivity. }
    destruct ((192 <=? uchar b0) && (uchar b0 <? 224)) eqn:C2.
    { destruct r0 as [|b1 r1]; [discriminate|]. cbn [length] in Hn.
      unfold Win32.is_trail, Win32.trail in H.
      pose proof (uchar_range b1) as R1.
      destruct ((128 <=? uchar b1) && (uchar b1 <=? 191)
                && (128 <=? (uchar b0 - 192) * 64 + (uchar b1 - 128))) eqn:T;
        [|discriminate].
      apply option_map_cons_inv in H. destruct H as (cps' & D & ->).
      destruct (IH r1 cps' ltac:(lia) D) as [Hsc ->]. split.
      - constructor; [|exact Hsc]. apply is_scalar_range. lia.
      - rewrite utf8_encode_cons. unfold Win32.utf8_of_cp.
        destruct (Z.ltb_spec ((uchar b0 - 192) * 64 + (uchar b1 - 128)) 128); [lia|].
        destruct (Z.ltb_spec ((uchar b0 - 192) * 64 + (uchar b1 - 128)) 2048); [|lia].
        cbn [app].
        replace (192 + ((uchar b0 - 192) * 64 + (uchar b1 - 128)) / 64)
          with (uchar b0) by (Z.div_mod_to_equations; lia).
        replace (128 + ((uchar b0 - 192) * 64 + (uchar b1 - 128)) mod 64)
          with (uchar b1) by (Z.div_mod_to_equations; lia).
        rewrite !byte_of_Z_uchar. reflexivity. }
    destruct ((224 <=? uchar b0) && (uchar b0 <? 240)) eqn:C3.
    { destruct r0 as [|b1 [|b2 r2]]; [discriminate | discriminate |].
      cbn [length] in Hn. unfold Win32.is_trail, Win32.trail in H.
      pose proof (uchar_range b1) as R1. pose proof (uchar_range b2) as R2.
      set (cp := (uchar b0 - 224) * 4096 + (uchar b1 - 128) * 64 + (uchar b2 - 128)) in *.
      destruct ((128 <=? uchar b1) && (uchar b1 <=? 191)
                && ((128 <=? uchar b2) && (uchar b2 <=? 191))
                && (2048 <=? cp) && Win32.is_scalar cp) eqn:T;
        [|discriminate].
      apply option_map_cons_inv in H. destruct H as (cps' & D & ->).
      destruct (IH r2 cps' ltac:(lia) D) as [Hsc ->].
      apply andb_true_iff in T. destruct T as [T Hs].
      assert (Hcp : 2048 <= cp < 65536) by (subst cp; lia).
      split.
      - constructor; assumption.
      - rewrite utf8_encode_cons. unfold Win32.utf8_of_cp.
        destruct (Z.ltb_spec cp 128); [lia|].
        destruct (Z.ltb_spec cp 2048); [lia|].
        destruct (Z.ltb_spec cp 65536); [|lia].
        cbn [app].
        replace (224 + cp / 4096) with (uchar b0)
          by (subst cp; Z.div_mod_to_equations; lia).
        replace (128 + (cp / 64) mod 64) with (uchar b1)
          by (subst cp; Z.div_mod_to_equations; lia).
        replace (128 + cp mod 64) with (uchar b2)
          by (subst cp; Z.div_mod_to_equations; lia).
        rewrite !byte_of_Z_uchar. reflexivity. }
    destruct ((240 <=? uchar b0) && (uchar b0 <? 248)) eqn:C4; [|discriminate].
    destruct r0 as [|b1 [|b2 [|b3 r3]]]; [discriminate | discriminate | discriminate |].
    cbn [length] in Hn. unfold Win32.is_trail, Win32.trail in H.
    pose proof (uchar_range b1) as R1. pose proof (uchar_range b2) as R2.
    pose proof (uchar_range b3) as R3.
    set (cp := (uchar b0 - 240) * 262144 + (uchar b1 - 128) * 4096
               + (uchar b2 - 128) * 64 + (uchar b3 - 128)) in *.
    destruct ((128 <=? uchar b1) && (uchar b1 <=? 191)
              && ((128 <=? uchar b2) && (uchar b2 <=? 191))
              && ((128 <=? uchar b3) && (uchar b3 <=? 191))
              && (65536 <=? cp) && Win32.is_scalar cp) eqn:T;
      [|discriminate].
    apply option_map_cons_inv in H. destruct H as (cps' & D & ->).
    destruct (IH r3 cps' ltac:(lia) D) as [Hsc ->].
    apply andb_true_iff in T. destruct T as [T Hs].
    assert (Hcp : 65536 <= cp) by lia.
    split.
    + constructor; assumption.
    + rewrite utf8_encode_cons. unfold Win32.utf8_of_cp.
      destruct (Z.ltb_spec cp 128); [lia|].
      destruct (Z.ltb_spec cp 2048); [lia|].
      destruct (Z.ltb_spec cp 65536); [lia|].
      cbn [app].
      replace (240 + cp / 262144) with (uchar b0)
        by (subst cp; Z.div_mod_to_equations; lia).
      replace (128 + (cp / 4096) mod 64) with (uchar b1)
        by (subst cp; Z.div_mod_to_equations; lia).
      replace (128 + (cp / 64) mod 64) with (uchar b2)
        by (subst cp; Z.div_mod_to_equations; lia).
      replace (128 + cp mod 64) with (uchar b3)
        by (subst cp; Z.div_mod_to_equations; lia).
      rewrite !byte_of_Z_uchar. reflexivity.
Qed.

(** In strict mode, on an input shorter than [INT_MAX] bytes, [u8widen]
    returns a value exactly when the input is valid UTF-8, and the value is
    then the UTF-16 form of the same code points; every other input makes it
    throw. *)
Theorem u8widen_strict_characterised (s : cstring) (w : wstring) :
  Z.of_nat (length s) < INT_MAX ->
  (u8widen s true = Value w <->
   exists cps, scalars cps /\ s = Win32.utf8_encode cps /\ w = Win32.utf16_encode cps).
Proof.
  intros Hlen. split.
  - intros H. destruct s as [|b0 s'] eqn:E.
    { cbn in H. injection H as <-. exists []. splits; [constructor | | ]; reflexivity. }
    rewrite <- E in *. assert (Hne : s <> []) by (subst; discriminate).
    destruct (Win32.utf8_decode true s) as [cps|] eqn:D.
    + destruct (utf8_decode_strict_sound (length s) s cps (le_n _) D) as [Hsc Hs].
      exists cps. splits; auto.
      rewrite Hs in H, Hlen. rewrite u8widen_valid in H by assumption. congruence.
    + rewrite u8widen_undecoded in H by assumption. discriminate.
  - intros (cps & Hsc & -> & ->). apply u8widen_valid; assumption.
Qed.

Lemma u8widen_strict_characterised_witness :
  Z.of_nat (length [xe2; x82; xac]) < INT_MAX /\
  (u8widen [xe2; x82; xac] true = Value [8364] <->
   exists cps, scalars cps /\ [xe2; x82; xac] = Win32.utf8_encode cps
               /\ [8364] = Win32.utf16_encode cps).
Proof.
  assert (H : Z.of_nat (length [xe2; x82; xac]) < INT_MAX) by reflexivity.
  split; [exact H|].
  exact (u8widen_strict_characterised [xe2; x82; xac] [8364] H).
Defined.

Lemma u8narrow_strict_value (w : wstring) (s : cstring) :
  wchars w ->
  3 * Z.of_nat (length w) < INT_MAX ->
  u8narrow w true = Value s ->
  exists cps, scalars cps /\ w = Win32.utf16_encode cps /\ s = Win32.utf8_encode cps.
Proof.
  intros Hw Hlen H. destruct w as [|u w'] eqn:E.
  { cbn in H. injection H as <-. exists []. splits; [constructor | | ]; reflexivity. }
  rewrite <- E in *. assert (Hne : w <> []) by (subst; discriminate).
  destruct (Win32.utf16_decode true w) as [cps|] eqn:D.
  - destruct (utf16_decode_strict_sound (length w) w cps (le_n _) Hw D) as [Hsc Hs].
    exists cps. splits; auto.
    rewrite Hs in H, Hlen. rewrite u8narrow_valid_units in H by assumption.
    congruence.
  - rewrite u8narrow_undecoded in H by assumption. discriminate.
Qed.

(** The same for [u8narrow], on 16-bit code units, fewer than a third of
    [INT_MAX] so that the byte count fits the [int] that receives it: in
    strict mode it returns a value exactly for well-formed UTF-16 (every
    surrogate paired), and the value is the UTF-8 form of the same code
    points. *)
Theorem u8narrow_strict_characterised (w : wstring) (s : cstring) :
  wchars w ->
  3 * Z.of_nat (length w) < INT_MAX ->
  (u8narrow w true = Value s <->
   exists cps, scalars cps /\ w = Win32.utf16_encode cps /\ s = Win32.utf8_encode cps).
Proof.
  intros Hw Hlen. split.
  - apply u8narrow_strict_value; assumption.
  - intros (cps & Hsc & -> & ->). apply u8narrow_valid_units; assumption.
Qed.

Lemma u8narrow_strict_characterised_witness :
  wchars [55357; 56832] /\
  3 * Z.of_nat (length [55357; 56832]%Z) < INT_MAX /\
  (u8narrow [55357; 56832] true = Value [xf0; x9f; x98; x80] <->
   exists cps, scalars cps /\ [55357; 56832] = Win32.utf16_encode cps
               /\ [xf0; x9f; x98; x80] = Win32.utf8_encode cps).
Proof.
  assert (H1 : wchars [55357; 56832]) by (repeat constructor; lia).
  assert (H2 : 3 * Z.of_nat (length [55357; 56832]%Z) < INT_MAX) by reflexivity.
  split; [exact H1|]. split; [exact H2|].
  exact (u8narrow_strict_characterised [55357; 56832] [xf0; x9f; x98; x80] H1 H2).
Defined.

(** ** [underflow] *)

Lemma wchars_firstn (n : nat) (w : wstring) : wchars w -> wchars (firstn n w).
Proof.
  intros H. rewrite <- (firstn_skipn n w) in H.
  apply Forall_app in H. tauto.
Qed.

Lemma wchars_wcs (w : wstring) : wchars w -> wchars (wcs w).
Proof.
  induction 1 as [|u w Hu _ IH]; [constructor|].
  cbn [wcs]. destruct (u =? 0); constructor; assumption.
Qed.

Lemma ReadConsoleW_wchars (con : Win32.console_in) (n : nat) :
  replies_wchars (Win32.read_script con) ->
  wchars (snd (fst (Win32.ReadConsoleW con n))) /\
  replies_wchars (Win32.read_script (snd (Win32.ReadConsoleW con n))).
Proof.
  intros H. unfold Win32.ReadConsoleW.
  destruct (Win32.read_script con) as [|r script]; cbn.
  - split; constructor.
  - inversion H; subst. split; [apply wchars_firstn|]; assumption.
Qed.

Lemma ReadConsoleW_length (con : Win32.console_in) (n : nat) :
  (length (snd (fst (Win32.ReadConsoleW con n))) <= n)%nat.
Proof.
  unfold Win32.ReadConsoleW.
  destruct (Win32.read_script con); cbn [fst snd length]; [lia|].
  apply firstn_le_length.
Qed.

Lemma complete_surrogate_wchars (units : wstring) (con : Win32.console_in) :
  wchars units ->
  replies_wchars (Win32.read_script con) ->
  wchars (fst (complete_surrogate units con)) /\
  replies_wchars (Win32.read_script (snd (complete_surrogate units con))).
Proof.
  intros Hu Hc. unfold complete_surrogate.
  destruct (_ && _); [|split; assumption].
  destruct (ReadConsoleW_wchars con 1 Hc) as [He Hs].
  destruct (Win32.ReadConsoleW con 1) as [[ok extra] con']. cbn [fst snd] in *.
  destruct (ok && _); cbn [fst snd]; split; auto.
  apply Forall_app. split; assumption.
Qed.

(** The read window holds valid UTF-8 and [underflow] keeps it so, on a
    terminal that delivers 16-bit code units: whatever is read, the bytes
    exposed to the caller are the encoding of whole code points (or the
    window is left as it was).  [eof] is returned only with an exhausted
    window. *)
Theorem underflow_keeps_window_valid
        (sb : U8ConsoleIstreamBufWin32) (con : Win32.console_in) :
  replies_wchars (Win32.read_script con) ->
  valid_utf8 (m_buffer sb) ->
  let '(o, sb', con') := underflow sb con in
  valid_utf8 (m_buffer sb') /\
  replies_wchars (Win32.read_script con') /\
  (o = Normal eof -> (egptr sb' <= gptr sb')%nat).
Proof.
  intros Hc Hv. unfold underflow.
  destruct (Nat.leb_spec (egptr sb) (gptr sb)) as [Hex|Hex].
  2:{ splits; auto. unfold sgetc. discriminate. }
  destruct (ReadConsoleW_wchars con (ARRAYSIZE_wideBuffer - 2) Hc) as [Hu Hc1].
  pose proof (ReadConsoleW_length con (ARRAYSIZE_wideBuffer - 2)) as Hlen.
  change (ARRAYSIZE_wideBuffer - 2)%nat with 126%nat in Hlen at 2.
  destruct (Win32.ReadConsoleW con (ARRAYSIZE_wideBuffer - 2)) as [[ok units] con1].
  cbn [fst snd] in *.
  destruct ok; cbn [negb]; [|splits; auto].
  destruct (complete_surrogate_wchars units con1 Hu Hc1) as [Hw Hc2].
  pose proof (complete_surrogate_length units con1) as Hl.
  destruct (complete_surrogate units con1) as [wideBuffer con2].
  cbn [fst snd] in *.
  unfold u8narrow_cstr, u8_default_throw. rewrite wcs_terminated.
  destruct (u8narrow (wcs wideBuffer) true) as [bytes|what] eqn:N;
    [|splits; auto; discriminate].
  apply u8narrow_strict_value in N.
  - destruct N as (cps & Hsc & _ & ->).
    assert (Hvalid : valid_utf8 (Win32.utf8_encode cps)) by (exists cps; auto).
    cbn [egptr gptr].
    destruct (Nat.leb_spec (length (Win32.utf8_encode cps)) 0);
      cbn [m_buffer egptr gptr]; splits; auto.
    unfold sgetc. discriminate.
  - apply wchars_wcs. exact Hw.
  - pose proof (wcs_shorter wideBuffer). unfold INT_MAX. lia.
Qed.

Lemma underflow_keeps_window_valid_witness :
  let con := {| Win32.read_script :=
                  [{| Win32.read_ok := true; Win32.read_units := [104; 233] |}];
                Win32.read_log := [] |} in
  replies_wchars (Win32.read_script con) /\
  valid_utf8 (m_buffer istreambuf_init) /\
  let '(o, sb', con') := underflow istreambuf_init con in
  valid_utf8 (m_buffer sb') /\
  replies_wchars (Win32.read_script con') /\
  (o = Normal eof -> (egptr sb' <= gptr sb')%nat).
Proof.
  cbv zeta.
  assert (H1 : replies_wchars
                 [{| Win32.read_ok := true; Win32.read_units := [104; 233] |}])
    by (repeat constructor; cbn; lia).
  assert (H2 : valid_utf8 (m_buffer istreambuf_init))
    by (exists []; split; [constructor | reflexivity]).
  split; [exact H1|]. split; [exact H2|].
  exact (underflow_keeps_window_valid istreambuf_init
           {| Win32.read_script :=
                [{| Win32.read_ok := true; Win32.read_units := [104; 233] |}];
              Win32.read_log := [] |} H1 H2).
Defined.

(** The reads of one [underflow]: none while the window holds bytes (the
    byte at the get pointer is returned and nothing changes); otherwise one
    read of 126 units, followed by at most one read of a single unit. *)
Theorem underflow_reads
        (sb : U8ConsoleIstreamBufWin32) (con : Win32.console_in) :
  let '(o, sb', con') := underflow sb con in
  if (egptr sb <=? gptr sb)%nat
  then Win32.read_log con' = Win32.read_log con ++ [126%nat] \/
       Win32.read_log con' = Win32.read_log con ++ [126%nat; 1%nat]
  else o = Normal (sgetc sb) /\ sb' = sb /\ con' = con.
Proof.
  unfold underflow. destruct (egptr sb <=? gptr sb)%nat; [|auto].
  change (ARRAYSIZE_wideBuffer - 2)%nat with 126%nat.
  assert (Hlog : Win32.read_log (snd (Win32.ReadConsoleW con 126))
                 = Win32.read_log con ++ [126%nat]).
  { unfold Win32.ReadConsoleW. destruct (Win32.read_script con); reflexivity. }
  destruct (Win32.ReadConsoleW con 126) as [[ok units] con1]. cbn [snd] in Hlog.
  destruct ok; cbn [negb]; [|left; exact Hlog].
  pose proof (complete_surrogate_log units con1) as Hl.
  destruct (complete_surrogate units con1) as [wideBuffer con2]. cbn [snd] in Hl.
  assert (H : Win32.read_log con2 = Win32.read_log con ++ [126%nat] \/
              Win32.read_log con2 = Win32.read_log con ++ [126%nat; 1%nat]).
  { rewrite Hl, Hlog. destruct (_ && _).
    - right. rewrite <- app_assoc. reflexivity.
    - left. apply app_nil_r. }
  destruct (u8narrow_cstr _ _) as [bytes|what]; [|exact H].
  destruct (_ <=? _)%nat; exact H.
Qed.

(** The terminator [wideBuffer[readSize] = 0] is stored inside the array of
    128 units: the batch holds at most 126 units and the extra read adds at
    most one. *)
Theorem underflow_terminator_in_bounds (con : Win32.console_in) :
  let '(ok, units, con1) := Win32.ReadConsoleW con (ARRAYSIZE_wideBuffer - 2) in
  (length (fst (complete_surrogate units con1)) < ARRAYSIZE_wideBuffer)%nat.
Proof.
  pose proof (ReadConsoleW_length con (ARRAYSIZE_wideBuffer - 2)) as Hlen.
  change (ARRAYSIZE_wideBuffer - 2)%nat with 126%nat in Hlen at 2.
  destruct (Win32.ReadConsoleW con (ARRAYSIZE_wideBuffer - 2)) as [[ok units] con1].
  cbn [fst snd] in Hlen.
  pose proof (complete_surrogate_length units con1). unfold ARRAYSIZE_wideBuffer. lia.
Qed.

Lemma wcs_cut (pre post : wstring) :
  Forall (fun u => u <> 0) pre -> wcs (pre ++ 0 :: post) = pre.
Proof.
  induction 1 as [|u pre Hu _ IH]; [reflexivity|].
  cbn [app wcs]. destruct (Z.eqb_spec u 0); [contradiction|]. rewrite IH. reflexivity.
Qed.

(** A NUL unit in the batch ends the text: the conversion goes through the
    null-terminated overload of [u8narrow], so the units after the first NUL
    are dropped, and a batch that begins with NUL is reported as end of
    stream. *)
Theorem underflow_stops_at_nul
        (sb : U8ConsoleIstreamBufWin32) (con : Win32.console_in)
        (text : list Z) (post : wstring) (script : list Win32.read_reply) :
  let units := Win32.utf16_encode text ++ 0 :: post in
  (egptr sb <= gptr sb)%nat ->
  Win32.read_script con =
    {| Win32.read_ok := true; Win32.read_units := units |} :: script ->
  (length units <= 126)%nat ->
  Win32.IS_HIGH_SURROGATE (nth (length units - 1) units 0) = false ->
  scalars text ->
  Forall (fun cp => cp <> 0) text ->
  underflow sb con =
    (match text with
     | [] => Normal eof
     | _ => Normal (to_int_type (uchar (at_index (Win32.utf8_encode text) 0)))
     end,
     {| m_buffer := Win32.utf8_encode text;
        gptr := 0;
        egptr := length (Win32.utf8_encode text) |},
     {| Win32.read_script := script;
        Win32.read_log := Win32.read_log con ++ [126%nat] |}).
Proof.
  intros units Hex Hscript Hlen Hhigh Hsc Hnz.
  rewrite (underflow_fill sb con _ _ Hex Hscript eq_refl).
  cbn [Win32.read_units]. rewrite firstn_all2 by exact Hlen.
  unfold complete_surrogate. rewrite Hhigh, andb_false_r.
  unfold units at 1. rewrite wcs_cut by (apply utf16_encode_nonzero; assumption).
  rewrite u8narrow_valid_units.
  - destruct text as [|cp text'] eqn:E; [reflexivity|]. rewrite <- E in *.
    destruct (Win32.utf8_encode text) as [|b bs] eqn:E'; [|reflexivity].
    apply utf8_encode_nil_inv in E'. congruence.
  - exact Hsc.
  - unfold units in Hlen. rewrite length_app in Hlen. unfold INT_MAX. lia.
Qed.

Lemma underflow_stops_at_nul_witness :
  let units := Win32.utf16_encode [104; 105] ++ 0 :: [33; 33] in
  let con := {| Win32.read_script :=
                  [{| Win32.read_ok := true; Win32.read_units := units |}];
                Win32.read_log := [] |} in
  (egptr istreambuf_init <= gptr istreambuf_init)%nat /\
  (length units <= 126)%nat /\
  Win32.IS_HIGH_SURROGATE (nth (length units - 1) units 0) = false /\
  scalars [104; 105] /\
  Forall (fun cp => cp <> 0) [104; 105] /\
  underflow istreambuf_init con =
    (Normal (to_int_type 104),
     {| m_buffer := [x68; x69]; gptr := 0; egptr := 2 |},
     {| Win32.read_script := []; Win32.read_log := [126%nat] |}).
Proof.
  cbv zeta.
  assert (H1 : (egptr istreambuf_init <= gptr istreambuf_init)%nat) by (cbn; lia).
  assert (H2 : (length (Win32.utf16_encode [104; 105] ++ 0 :: [33; 33])%Z <= 126)%nat)
    by (cbn; lia).
  assert (H3 : scalars [104; 105]) by (repeat constructor).
  assert (H4 : Forall (fun cp => cp <> 0) [104; 105])
    by (repeat constructor; discriminate).
  split; [exact H1|]. split; [exact H2|]. split; [reflexivity|].
  split; [exact H3|]. split; [exact H4|].
  exact (underflow_stops_at_nul istreambuf_init
           {| Win32.read_script :=
                [{| Win32.read_ok := true;
                    Win32.read_units := Win32.utf16_encode [104; 105] ++ 0 :: [33; 33] |}];
              Win32.read_log := [] |}
           [104; 105] [33; 33] [] H1 eq_refl H2 eq_refl H3 H4).
Defined.

(** ** The null-terminated overloads *)

Lemma cstr_cut (pre post : cstring) :
  Forall (fun c => uchar c <> 0) pre -> cstr (pre ++ x00 :: post) = pre.
Proof.
  induction 1 as [|c pre Hc _ IH]; [reflexivity|].
  cbn [app cstr]. destruct (Z.eqb_spec (uchar c) 0); [contradiction|].
  rewrite IH. reflexivity.
Qed.

Lemma utf8_of_cp_nonzero (cp : Z) :
  Win32.is_scalar cp = true -> cp <> 0 ->
  Forall (fun c => uchar c <> 0) (Win32.utf8_of_cp cp).
Proof.
  intros Hs Hz. apply is_scalar_range in Hs. unfold Win32.utf8_of_cp.
  destruct (Z.ltb_spec cp 128); [|destruct (Z.ltb_spec cp 2048);
                                   [|destruct (Z.ltb_spec cp 65536)]];
    repeat constructor;
    rewrite uchar_byte_of_Z by (Z.div_mod_to_equations; lia);
    Z.div_mod_to_equations; lia.
Qed.

Lemma utf8_encode_nonzero (cps : list Z) :
  scalars cps -> Forall (fun cp => cp <> 0) cps ->
  Forall (fun c => uchar c <> 0) (Win32.utf8_encode cps).
Proof.
  induction 1 as [|cp cps Hcp _ IH]; intros Hz; [constructor|].
  inversion Hz; subst. rewrite utf8_encode_cons.
  apply Forall_app. split; [apply utf8_of_cp_nonzero | apply IH]; assumption.
Qed.

(** The overload of [u8widen] for a null-terminated [const char *] converts
    the bytes before the first NUL only, whereas the overload for a
    [std::string] converts a NUL like any other ASCII byte. *)
Theorem u8widen_cstr_stops_at_nul (text text' : list Z) (strict : bool) :
  scalars text -> scalars text' ->
  Forall (fun cp => cp <> 0) text ->
  Z.of_nat (length (Win32.utf8_encode (text ++ 0 :: text'))) < INT_MAX ->
  u8widen_cstr (Win32.utf8_encode (text ++ 0 :: text')) strict
    = Value (Win32.utf16_encode text) /\
  u8widen (Win32.utf8_encode (text ++ 0 :: text')) strict
    = Value (Win32.utf16_encode text ++ 0 :: Win32.utf16_encode text').
Proof.
  intros Hsc Hsc' Hnz Hlen.
  assert (Hall : scalars (text ++ 0 :: text')).
  { apply scalars_app. split; [assumption|]. constructor; [reflexivity | assumption]. }
  split.
  - unfold u8widen_cstr. rewrite utf8_encode_app, utf8_encode_cons.
    change (Win32.utf8_of_cp 0) with [x00]. cbn [app].
    rewrite cstr_cut.
    + apply u8widen_valid; [assumption|].
      rewrite utf8_encode_app, length_app in Hlen. lia.
    + apply utf8_encode_nonzero; assumption.
  - rewrite u8widen_valid by assumption.
    rewrite utf16_encode_app. reflexivity.
Qed.

Lemma u8widen_cstr_stops_at_nul_witness :
  scalars [97; 233] /\ scalars [98] /\
  Forall (fun cp => cp <> 0) [97; 233] /\
  Z.of_nat (length (Win32.utf8_encode ([97; 233] ++ 0 :: [98]))) < INT_MAX /\
  u8widen_cstr (Win32.utf8_encode ([97; 233] ++ 0 :: [98])) true
    = Value (Win32.utf16_encode [97; 233]) /\
  u8widen (Win32.utf8_encode ([97; 233] ++ 0 :: [98])) true
    = Value (Win32.utf16_encode [97; 233] ++ 0 :: Win32.utf16_encode [98]).
Proof.
  assert (H1 : scalars [97; 233]) by (repeat constructor).
  assert (H2 : scalars [98]) by (repeat constructor).
  assert (H3 : Forall (fun cp => cp <> 0) [97; 233])
    by (repeat constructor; discriminate).
  assert (H4 : Z.of_nat (length (Win32.utf8_encode ([97; 233] ++ 0 :: [98]))) < INT_MAX)
    by reflexivity.
  split; [exact H1|]. split; [exact H2|]. split; [exact H3|]. split; [exact H4|].
  exact (u8widen_cstr_stops_at_nul [97; 233] [98] true H1 H2 H3 H4).
Defined.

(** ** The argument vector *)

Lemma length_store {A} (i : nat) (v : A) (a : list A) :
  length (store i v a) = length a.
Proof.
  revert i. induction a as [|x a IH]; intros [|i]; cbn; auto.
Qed.

Lemma nth_store {A} (i j : nat) (v d : A) (a : list A) :
  nth j (store i v a) d =
  if (j =? i)%nat && (i <? length a)%nat then v else nth j a d.
Proof.
  revert i j. induction a as [|x a IH]; intros i j.
  - cbn. rewrite andb_false_r. destruct i, j; reflexivity.
  - destruct i as [|i], j as [|j]; cbn [store nth length]; try reflexivity.
    rewrite IH. reflexivity.
Qed.

Lemma convert_arguments_spec (wargv : list wstring) (count : nat) :
  forall (i : nat) (ab : u8_argv_buf),
    let ab' := convert_arguments count i wargv ab in
    argc ab' = argc ab /\
    length (argv ab') = length (argv ab) /\
    forall j d,
      nth j (argv ab') d =
      if (i <=? j)%nat && (j <? i + count)%nat && (j <? length (argv ab))%nat
      then Some (convert_argument (nth j wargv []))
      else nth j (argv ab) d.
Proof.
  induction count as [|count IH]; intros i ab.
  - cbn [convert_arguments]. splits; auto. intros j d. rewrite Nat.add_0_r.
    destruct (Nat.leb_spec i j), (Nat.ltb_spec j i); cbn [andb];
      try reflexivity; lia.
  - cbn [convert_arguments]. cbv zeta.
    destruct (IH (S i) {| argc := argc ab;
                          argv := store i (Some (convert_argument (nth i wargv [])))
                                        (argv ab) |}) as (Hc & Hl & Hn).
    cbn [argc argv] in *. rewrite length_store in *. splits; auto.
    intros j d. rewrite Hn, nth_store.
    destruct (Nat.leb_spec (S i) j), (Nat.leb_spec i j),
             (Nat.ltb_spec j (S i + count)), (Nat.ltb_spec j (i + S count)),
             (Nat.ltb_spec j (length (argv ab))), (Nat.eqb_spec j i),
             (Nat.ltb_spec i (length (argv ab)));
      cbn [andb]; subst; auto; lia.
Qed.

Lemma wmain_argv_entries (_argc : nat) (wargv : list wstring) :
  length (wmain_argv _argc wargv) = (_argc + 1)%nat /\
  forall j d,
    nth j (wmain_argv _argc wargv) d =
    if (j <? _argc)%nat then Some (convert_argument (nth j wargv []))
    else nth j (repeat None (_argc + 1)) d.
Proof.
  unfold wmain_argv, u8_argv_copy.
  destruct (convert_arguments_spec wargv _argc 0 (u8_argv_buf_new _argc))
    as (Hc & Hl & Hn).
  cbn [u8_argv_buf_new argc argv] in *. rewrite repeat_length in *.
  rewrite Hc, firstn_all2 by lia. split; [exact Hl|].
  intros j d. rewrite Hn. cbn [Nat.add Nat.leb andb].
  destruct (Nat.ltb_spec j _argc), (Nat.ltb_spec j (_argc + 1));
    cbn [andb]; try reflexivity; lia.
Qed.

(** The argument vector handed to [main_utf8_] has [argc + 1] entries: the
    converted arguments in order, and a null pointer at [argv[argc]]. *)
Theorem wmain_argv_shape (_argc : nat) (wargv : list wstring) (i : nat) :
  (i < _argc)%nat ->
  length (wmain_argv _argc wargv) = (_argc + 1)%nat /\
  nth _argc (wmain_argv _argc wargv) (Some []) = None /\
  nth i (wmain_argv _argc wargv) None = Some (convert_argument (nth i wargv [])).
Proof.
  intros Hi. destruct (wmain_argv_entries _argc wargv) as [Hl Hn]. splits.
  - exact Hl.
  - rewrite Hn, Nat.ltb_irrefl. apply nth_repeat_lt. lia.
  - rewrite Hn. destruct (Nat.ltb_spec i _argc); [reflexivity | lia].
Qed.

Lemma wmain_argv_shape_witness :
  (1 < 2)%nat /\
  length (wmain_argv 2 [[112; 0]; [233; 0]]) = (2 + 1)%nat /\
  nth 2 (wmain_argv 2 [[112; 0]; [233; 0]]) (Some []) = None /\
  nth 1 (wmain_argv 2 [[112; 0]; [233; 0]]) None
    = Some (convert_argument (nth 1 [[112; 0]; [233; 0]] [])).
Proof.
  assert (H : (1 < 2)%nat) by lia. split; [exact H|].
  exact (wmain_argv_shape 2 [[112; 0]; [233; 0]] 1 H).
Defined.

Lemma wcs_units_nonzero (w : wstring) : Forall (fun u => u <> 0) (wcs w).
Proof.
  induction w as [|u w IH]; [constructor|].
  cbn [wcs]. destruct (Z.eqb_spec u 0); constructor; assumption.
Qed.

Lemma utf16_encode_nonzero_inv (cps : list Z) :
  Forall (fun u => u <> 0) (Win32.utf16_encode cps) ->
  Forall (fun cp => cp <> 0) cps.
Proof.
  induction cps as [|cp cps IH]; [constructor|].
  unfold Win32.utf16_encode. cbn [flat_map]. intros H.
  apply Forall_app in H. destruct H as [Hcp Hrest].
  constructor; [|apply IH; exact Hrest].
  intros ->. cbn in Hcp. inversion Hcp; congruence.
Qed.

Lemma convert_argument_well_formed (warg : wstring) (cps : list Z) :
  wcs warg = Win32.utf16_encode cps ->
  scalars cps ->
  Z.of_nat (length (Win32.utf8_encode cps)) < INT_MAX ->
  convert_argument warg = Win32.utf8_encode cps ++ [x00].
Proof.
  intros Hw Hsc Hlen. unfold convert_argument, WideCharToMultiByte_sz.
  unfold Win32.WideCharToMultiByte. cbv zeta.
  change (negb (Z.land 0 Win32.WC_ERR_INVALID_CHARS =? 0)) with false.
  assert (Hdec : Win32.utf16_decode false (wcs warg ++ [0]) = Some (cps ++ [0])).
  { rewrite Hw. change [0] with (Win32.utf16_encode [0]) at 1.
    rewrite <- utf16_encode_app. apply utf16_decode_encode.
    apply scalars_app. split; [assumption | repeat constructor]. }
  rewrite Hdec. cbn [option_map].
  assert (Hne : Win32.utf8_encode (cps ++ [0]) <> []).
  { intros E. apply utf8_encode_nil_inv in E. destruct cps; discriminate. }
  assert (Hfit : Z.of_nat (length (Win32.utf8_encode (cps ++ [0]))) <= INT_MAX).
  { rewrite utf8_encode_app, length_app. cbn [length Win32.utf8_encode flat_map].
    change (length (Win32.utf8_of_cp 0 ++ [])) with 1%nat. lia. }
  rewrite report_size, report_fill, resized_and_filled_exact by assumption.
  rewrite utf8_encode_app. reflexivity.
Qed.

(** Every well-formed command-line argument survives the conversion: the
    entry of the argument vector is the UTF-8 form of the wide argument with
    its terminator, and [u8widen(argv[i])] gives the wide argument back
    (for arguments whose UTF-8 form is shorter than [INT_MAX]). *)
Theorem wmain_argv_roundtrip
        (_argc : nat) (wargv : list wstring) (i : nat) (cps : list Z) :
  (i < _argc)%nat ->
  wcs (nth i wargv []) = Win32.utf16_encode cps ->
  scalars cps ->
  Z.of_nat (length (Win32.utf8_encode cps)) < INT_MAX ->
  nth i (wmain_argv _argc wargv) None = Some (Win32.utf8_encode cps ++ [x00]) /\
  u8widen_cstr (Win32.utf8_encode cps ++ [x00]) true = Value (wcs (nth i wargv [])).
Proof.
  intros Hi Hw Hsc Hlen.
  destruct (wmain_argv_entries _argc wargv) as [_ Hn].
  rewrite Hn. destruct (Nat.ltb_spec i _argc); [|lia].
  rewrite (convert_argument_well_formed _ cps Hw Hsc Hlen). split; [reflexivity|].
  unfold u8widen_cstr. rewrite cstr_cut.
  - rewrite Hw. apply u8widen_valid; assumption.
  - apply utf8_encode_nonzero; [assumption|].
    apply utf16_encode_nonzero_inv. rewrite <- Hw. apply wcs_units_nonzero.
Qed.

Lemma wmain_argv_roundtrip_witness :
  (1 < 2)%nat /\
  wcs (nth 1 [[112; 0]; [233; 8364; 0]] []) = Win32.utf16_encode [233; 8364] /\
  scalars [233; 8364] /\
  Z.of_nat (length (Win32.utf8_encode [233; 8364])) < INT_MAX /\
  nth 1 (wmain_argv 2 [[112; 0]; [233; 8364; 0]]) None
    = Some (Win32.utf8_encode [233; 8364] ++ [x00]) /\
  u8widen_cstr (Win32.utf8_encode [233; 8364] ++ [x00]) true
    = Value (wcs (nth 1 [[112; 0]; [233; 8364; 0]] [])).
Proof.
  assert (H1 : (1 < 2)%nat) by lia.
  assert (H2 : wcs (nth 1 [[112; 0]; [233; 8364; 0]] []) = Win32.utf16_encode [233; 8364])
    by reflexivity.
  assert (H3 : scalars [233; 8364]) by (repeat constructor).
  assert (H4 : Z.of_nat (length (Win32.utf8_encode [233; 8364])) < INT_MAX)
    by reflexivity.
  split; [exact H1|]. split; [exact H2|]. split; [exact H3|]. split; [exact H4|].
  exact (wmain_argv_roundtrip 2 [[112; 0]; [233; 8364; 0]] 1 [233; 8364] H1 H2 H3 H4).
Defined.

(** ** The stream fixers *)

(** The input fixer is a scoped rebind: while it lives, the stream reads
    from the console buffer exactly when the handle is a character device;
    its destructor puts the previous buffer back.  A stream that had no
    buffer (a null [rdbuf]) is the exception: the console buffer stays in
    place after the fixer is gone. *)
Theorem U8StdInStreamFixer_scope (file_type : Z) (stream : ios) :
  let '(fixer, during) := U8StdInStreamFixer_ctor file_type stream in
  rdbuf during = (if file_type =? FILE_TYPE_CHAR then m_csb_get else rdbuf stream) /\
  U8StdInStreamFixer_dtor fixer during =
  (if (file_type =? FILE_TYPE_CHAR) && is_null (rdbuf stream)
   then {| rdbuf := m_csb_get; flushed := flushed stream |}
   else stream).
Proof.
  unfold U8StdInStreamFixer_ctor, U8StdInStreamFixer_dtor.
  destruct stream as [p fl].
  destruct (file_type =? FILE_TYPE_CHAR); [|split; reflexivity].
  destruct p; split; reflexivity.
Qed.

(** The output fixer does the same and flushes at both ends: on a character
    device the previous buffer is flushed once before the console buffer is
    installed, and the console buffer is flushed once before the previous
    buffer is put back; on a file or pipe the stream is not touched and
    nothing is flushed.  A stream without a buffer keeps the console buffer,
    which is then never flushed by the fixer. *)
Theorem U8StdOutStreamFixer_scope (file_type : Z) (stream : ios) :
  let '(fixer, during) := U8StdOutStreamFixer_ctor file_type stream in
  rdbuf during = (if file_type =? FILE_TYPE_CHAR then m_csb_get else rdbuf stream) /\
  U8StdOutStreamFixer_dtor fixer during =
  (if file_type =? FILE_TYPE_CHAR
   then
     if is_null (rdbuf stream)
     then {| rdbuf := m_csb_get; flushed := flushed stream |}
     else {| rdbuf := rdbuf stream;
             flushed := flushed stream ++ [rdbuf stream; m_csb_get] |}
   else stream).
Proof.
  unfold U8StdOutStreamFixer_ctor, U8StdOutStreamFixer_dtor, ios_flush.
  destruct stream as [p fl].
  destruct (file_type =? FILE_TYPE_CHAR); [|split; reflexivity].
  destruct p; cbn; rewrite <- ?app_assoc; split; reflexivity.
Qed.

(** ** Composition *)

(** Whatever the chunking of a valid text and wherever the output stops,
    the terminal has received whole code points only: its text is the
    UTF-16 form of a prefix [cpsW] of the code points written so far, the
    rest being the pending tail and the bytes not yet written. *)
Theorem terminal_text_whole_code_points
        (chunks : list cstring) (rest : cstring) (cps : list Z)
        (con : Win32.console_out) :
  scalars cps ->
  concat chunks ++ rest = Win32.utf8_encode cps ->
  Z.of_nat (length (concat chunks)) < INT_MAX ->
  let '(outcomes, sb', con') := flush_all ostreambuf_init con chunks in
  exists cpsW cpsR,
    cps = cpsW ++ cpsR /\
    terminal_text con' = terminal_text con ++ Win32.utf16_encode cpsW /\
    m_unwritten_partial_bytes sb' ++ rest = Win32.utf8_encode cpsR /\
    outcomes = repeat (Normal 0) (length chunks).
Proof.
  intros Hsc H Hlen.
  destruct (flush_all_valid chunks ostreambuf_init con cps rest eq_refl Hsc H Hlen)
    as (W & R & sb' & con' & E & Hall & _ & Hr & Htext & _).
  rewrite Hall. exists W, R. splits; auto.
Qed.

Lemma terminal_text_whole_code_points_witness :
  scalars [233; 128512] /\
  concat [[xc3]; [xa9; xf0; x9f]] ++ [x98; x80] = Win32.utf8_encode [233; 128512] /\
  Z.of_nat (length (concat [[xc3]; [xa9; xf0; x9f]])) < INT_MAX /\
  let '(outcomes, sb', con') :=
    flush_all ostreambuf_init console_out_init [[xc3]; [xa9; xf0; x9f]] in
  exists cpsW cpsR,
    [233; 128512] = cpsW ++ cpsR /\
    terminal_text con' = terminal_text console_out_init ++ Win32.utf16_encode cpsW /\
    m_unwritten_partial_bytes sb' ++ [x98; x80] = Win32.utf8_encode cpsR /\
    outcomes = repeat (Normal 0) (length [[xc3]; [xa9; xf0; x9f]]).
Proof.
  assert (H1 : scalars [233; 128512]) by (repeat constructor).
  assert (H2 : concat [[xc3]; [xa9; xf0; x9f]] ++ [x98; x80]
               = Win32.utf8_encode [233; 128512]) by reflexivity.
  assert (H3 : Z.of_nat (length (concat [[xc3]; [xa9; xf0; x9f]])) < INT_MAX)
    by reflexivity.
  split; [exact H1|]. split; [exact H2|]. split; [exact H3|].
  exact (terminal_text_whole_code_points [[xc3]; [xa9; xf0; x9f]] [x98; x80]
           [233; 128512] console_out_init H1 H2 H3).
Defined.

Lemma nth_last_app {A} (a b : list A) (d : A) :
  b <> [] ->
  nth (length (a ++ b) - 1) (a ++ b) d = nth (length b - 1) b d.
Proof.
  intros Hb. rewrite length_app.
  assert (0 < length b)%nat by (destruct b; [congruence | cbn; lia]).
  rewrite app_nth2 by lia. f_equal. lia.
Qed.

(** Well-formed text never ends with a high surrogate. *)
Lemma utf16_encode_last_not_high (cps : list Z) :
  scalars cps ->
  Win32.IS_HIGH_SURROGATE
    (nth (length (Win32.utf16_encode cps) - 1) (Win32.utf16_encode cps) 0) = false.
Proof.
  intros Hsc. destruct cps as [|c cps'] eqn:E; [reflexivity|].
  assert (Hne : cps <> []) by (subst; discriminate). rewrite <- E in *. clear E.
  destruct (exists_last Hne) as (pre & cp & ->).
  apply scalars_app in Hsc. destruct Hsc as [_ Hcp].
  inversion Hcp as [|? ? Hs _]; subst. apply is_scalar_range in Hs.
  rewrite utf16_encode_app.
  change (Win32.utf16_encode [cp]) with (Win32.utf16_of_cp cp ++ []).
  rewrite app_nil_r, nth_last_app by apply utf16_of_cp_nonempty.
  unfold Win32.utf16_of_cp, Win32.IS_HIGH_SURROGATE.
  destruct (Z.ltb_spec cp 65536); cbn [length Nat.sub nth];
    Z.div_mod_to_equations; lia.
Qed.

(** Reading a batch and writing it back: for a well-formed batch of at most
    126 units without NUL, [underflow] exposes the UTF-8 form of the text
    with a single read, and flushing those bytes through a fresh output
    buffer sends the terminal the text again, up to the code point that
    [sync] withholds. *)
Theorem console_echo
        (sb : U8ConsoleIstreamBufWin32) (con : Win32.console_in)
        (script : list Win32.read_reply) (ocon : Win32.console_out)
        (text : list Z) :
  scalars text ->
  Forall (fun cp => cp <> 0) text ->
  (length (Win32.utf16_encode text) <= 126)%nat ->
  (egptr sb <= gptr sb)%nat ->
  Win32.read_script con =
    {| Win32.read_ok := true; Win32.read_units := Win32.utf16_encode text |} :: script ->
  let '(o, sb', con') := underflow sb con in
  m_buffer sb' = Win32.utf8_encode text /\
  Win32.read_log con' = Win32.read_log con ++ [126%nat] /\
  exists ocon',
    flush ostreambuf_init ocon (m_buffer sb') =
      (Normal 0,
       {| m_unwritten_partial_bytes := Win32.utf8_encode (withheld text);
          str := [] |},
       ocon') /\
    terminal_text ocon' = terminal_text ocon ++ Win32.utf16_encode (released text).
Proof.
  intros Hsc Hnz Hlen Hex Hscript.
  rewrite (underflow_fill sb con _ _ Hex Hscript eq_refl).
  cbn [Win32.read_units]. rewrite firstn_all2 by exact Hlen.
  unfold complete_surrogate.
  rewrite utf16_encode_last_not_high, andb_false_r by exact Hsc.
  rewrite wcs_nonzero by (apply utf16_encode_nonzero; assumption).
  rewrite u8narrow_valid_units by (try assumption; unfold INT_MAX; lia).
  assert (Hb : Z.of_nat (length (Win32.utf8_encode text)) < INT_MAX).
  { pose proof (utf8_encode_length_units text). unfold INT_MAX. lia. }
  assert (Hf : exists ocon',
             flush ostreambuf_init ocon (Win32.utf8_encode text) =
               (Normal 0,
                {| m_unwritten_partial_bytes := Win32.utf8_encode (withheld text);
                   str := [] |},
                ocon') /\
             terminal_text ocon' =
               terminal_text ocon ++ Win32.utf16_encode (released text)).
  { assert (H1 : (m_unwritten_partial_bytes
                    (sputn ostreambuf_init (Win32.utf8_encode text))
                  ++ str (sputn ostreambuf_init (Win32.utf8_encode text))) ++ []
                 = Win32.utf8_encode text)
      by (cbn; apply app_nil_r).
    destruct (sync_valid _ ocon text [] Hsc H1 Hb)
      as (W & R & pend & ocon' & E & Hsync & Hr & Htext & Hlast).
    specialize (Hlast eq_refl). rewrite app_nil_r in Hr.
    destruct (released_split text W R Hsc E) as [_ HW]; [congruence|].
    exists ocon'. unfold flush. rewrite Hsync, Hlast, Htext, HW.
    split; reflexivity. }
  revert Hf.
  destruct (Win32.utf8_encode text) as [|b bs]; intros Hf;
    cbn [m_buffer]; (split; [reflexivity|]); (split; [reflexivity|]); exact Hf.
Qed.

Lemma console_echo_witness :
  let con := {| Win32.read_script :=
                  [{| Win32.read_ok := true;
                      Win32.read_units := Win32.utf16_encode [233; 128512; 10] |}];
                Win32.read_log := [] |} in
  scalars [233; 128512; 10] /\
  Forall (fun cp => cp <> 0) [233; 128512; 10] /\
  (length (Win32.utf16_encode [233; 128512; 10]%Z) <= 126)%nat /\
  (egptr istreambuf_init <= gptr istreambuf_init)%nat /\
  let '(o, sb', con') := underflow istreambuf_init con in
  m_buffer sb' = Win32.utf8_encode [233; 128512; 10] /\
  Win32.read_log con' = Win32.read_log con ++ [126%nat] /\
  exists ocon',
    flush ostreambuf_init console_out_init (m_buffer sb') =
      (Normal 0,
       {| m_unwritten_partial_bytes := Win32.utf8_encode (withheld [233; 128512; 10]);
          str := [] |},
       ocon') /\
    terminal_text ocon' =
      terminal_text console_out_init
      ++ Win32.utf16_encode (released [233; 128512; 10]).
Proof.
  cbv zeta.
  assert (H1 : scalars [233; 128512; 10]) by (repeat constructor).
  assert (H2 : Forall (fun cp => cp <> 0) [233; 128512; 10])
    by (repeat constructor; discriminate).
  assert (H3 : (length (Win32.utf16_encode [233; 128512; 10]%Z) <= 126)%nat)
    by (cbn; lia).
  assert (H4 : (egptr istreambuf_init <= gptr istreambuf_init)%nat) by (cbn; lia).
  split; [exact H1|]. split; [exact H2|]. split; [exact H3|]. split; [exact H4|].
  exact (console_echo istreambuf_init
           {| Win32.read_script :=
                [{| Win32.read_ok := true;
                    Win32.read_units := Win32.utf16_encode [233; 128512; 10] |}];
              Win32.read_log := [] |}
           [] console_out_init [233; 128512; 10] H1 H2 H3 H4 eq_refl).
Defined.
